(** * Queue<T>: a fixed-capacity queue over a raw slab (src/src/queue.h)

    A shallow embedding of the class template [Queue<T>] and a verification
    of its capacity, ordering, copying and memory-access behaviour.

    The embedding follows the source member by member.  The storage behind
    [m_data] lives in a heap of blocks, so that two queues can be told apart
    by the block they own; every access the code makes through [m_data] is
    recorded, so that statements about which slot is written or destroyed
    are statements about the code and not about its intention.

    The model is of one thread: each member function holds [mtx] for its
    whole body, so calls are atomic steps, and a wait on [cv] is resolved
    against the state at the call (no other thread pushes meanwhile). *)

From stdpp Require Import base numbers list option gmap strings.

Local Open Scope Z_scope.

(** ** Machine integers

    [int] is 32 bits wide and [size_t] 64 bits wide (LP64).  The counters
    [m_filled] and [m_capacity] are kept as [Z]; the only arithmetic on them
    is [m_filled += 1] under the guard [m_filled < m_capacity] and
    [m_filled -= 1] under the guard [m_filled != 0], which stay inside [int]
    whenever [0 <= m_filled <= m_capacity <= INT_MAX]. *)

Definition INT_MIN : Z := - 2 ^ 31.
Definition INT_MAX : Z := 2 ^ 31 - 1.
Definition SIZE_MOD : Z := 2 ^ 64.
Definition PTRDIFF_MAX : Z := 2 ^ 63 - 1.

Definition int_range (z : Z) : Prop := INT_MIN <= z <= INT_MAX.

(** Conversion of an [int] operand to [size_t], as the usual arithmetic
    conversions do in [size * sizeof(T)]. *)
Definition size_t_of_int (z : Z) : Z := z mod SIZE_MOD.

(** Multiplication in [size_t]: unsigned, modulo [2^64]. *)
Definition size_t_mul (a b : Z) : Z := (a * b) mod SIZE_MOD.

(** ** Outcomes of a call *)

Inductive errc : Set :=
  | operation_would_block.

Inductive exception : Set :=
  | bad_alloc
  | system_error (ec : errc) (what : string).

(** A call returns a value, throws, never comes back from a wait on the
    condition variable, or does what the language gives no meaning to: it
    reads where there is no object, or stores where there is no slot.  What
    the machine does then (it may overwrite what lies next to the slab, or
    abort later) is not followed: [Fault] ends the call. *)
Inductive outcome (A : Type) : Type :=
  | Returned (a : A)
  | Thrown (e : exception)
  | Blocked
  | Fault.

Arguments Returned {A} a.
Arguments Thrown {A} e.
Arguments Blocked {A}.
Arguments Fault {A}.

(** ** State and outcome monad *)

Definition M (S A : Type) : Type := S -> outcome A * S.

Definition ret {S A : Type} (a : A) : M S A := fun s => (Returned a, s).

Definition bind {S A B : Type} (m : M S A) (k : A -> M S B) : M S B :=
  fun s =>
    match m s with
    | (Returned a, s') => k a s'
    | (Thrown e, s') => (Thrown e, s')
    | (Blocked, s') => (Blocked, s')
    | (Fault, s') => (Fault, s')
    end.

Definition throw {S A : Type} (e : exception) : M S A := fun s => (Thrown e, s).

Declare Scope queue_scope.
Delimit Scope queue_scope with queue.
Notation "'let*' x ':=' m 'in' k" := (bind m (fun x => k))
  (at level 10, x name, m at level 100, k at level 200) : queue_scope.
Notation "m ';;' k" := (bind m (fun _ => k))
  (at level 100, k at level 200, right associativity) : queue_scope.
Local Open Scope queue_scope.

(** [for (int i = ...; ...; i++) body], over the values [i] takes. *)
Fixpoint for_each {S : Type} (l : list Z) (body : Z -> M S unit) : M S unit :=
  match l with
  | [] => ret tt
  | i :: l' => body i ;; for_each l' body
  end.

(** [for (int i = lo; i < hi; i++) body]. *)
Definition for_range {S : Type} (lo hi : Z) (body : Z -> M S unit) : M S unit :=
  for_each (seqZ lo (hi - lo)) body.

(** ** The heap of slabs *)

Abbreviation loc := positive.

(** What the code does to the slot [p + i]. *)
Inductive access : Set :=
  | Read (p : loc) (i : Z)       (* *(p + i) used as a value *)
  | Construct (p : loc) (i : Z)  (* new (p + i) T(v) *)
  | Assign (p : loc) (i : Z)     (* *(p + i) = v *)
  | Destroy (p : loc) (i : Z).   (* (p + i)->~T() *)

(** The slots the code writes a value to, most recent first. *)
Fixpoint writes (l : list access) : list (loc * Z) :=
  match l with
  | [] => []
  | Construct p i :: l' => (p, i) :: writes l'
  | Assign p i :: l' => (p, i) :: writes l'
  | _ :: l' => writes l'
  end.

(** The slots the code runs a destructor on, most recent first. *)
Fixpoint destroys (l : list access) : list (loc * Z) :=
  match l with
  | [] => []
  | Destroy p i :: l' => (p, i) :: destroys l'
  | _ :: l' => destroys l'
  end.

(** The slots the code reads as values, most recent first. *)
Fixpoint reads (l : list access) : list (loc * Z) :=
  match l with
  | [] => []
  | Read p i :: l' => (p, i) :: reads l'
  | _ :: l' => reads l'
  end.

Section Queue.

Context {T : Type}.

(** A slab is a row of slots; a slot holds an object of [T] ([Some v]) or
    is raw memory ([None]). *)
Local Abbreviation slab := (list (option T)).

(** [blocks] are the slabs obtained from [operator new]; [accesses] is the
    record of what was done through pointers into them, most recent first. *)
Record Mem : Type := mkMem {
  blocks : gmap loc slab;
  accesses : list access
}.

Definition slot_at (b : slab) (i : Z) : option (option T) :=
  if 0 <=? i then b !! Z.to_nat i else None.

Definition set_slot (b : slab) (i : Z) (s : option T) : slab :=
  if 0 <=? i then <[Z.to_nat i := s]> b else b.

(** The object at [p + i], if there is one. *)
Definition peek (p : loc) (i : Z) (m : Mem) : option T :=
  match blocks m !! p with
  | Some b => match slot_at b i with Some s => s | None => None end
  | None => None
  end.

(** The slot [p + i] of the slab of [p] set to [s].  It is used for stores
    inside the slab (see [store]) and for the destructor call, which ends
    the life of the object in the slot and has nothing to end where [p + i]
    is no slot of the slab (the one place past its end included). *)
Definition poke (p : loc) (i : Z) (s : option T) (m : Mem) : Mem :=
  {| blocks := alter (fun b => set_slot b i s) p (blocks m);
     accesses := accesses m |}.

Definition record (a : access) : M Mem unit :=
  fun m => (Returned tt, {| blocks := blocks m; accesses := a :: accesses m |}).

Definition update (f : Mem -> Mem) : M Mem unit :=
  fun m => (Returned tt, f m).

(** [*(p + i)] as a value. *)
Definition load (p : loc) (i : Z) : M Mem T :=
  record (Read p i) ;;
  fun m => match peek p i m with
           | Some v => (Returned v, m)
           | None => (Fault, m)
           end.

(** A store of [v] to [p + i]: into the slot, when [p + i] is a slot of
    the slab of [p]; a store anywhere else has no defined behaviour. *)
Definition store (p : loc) (i : Z) (v : T) : M Mem unit :=
  fun m =>
    match blocks m !! p with
    | Some b =>
        if (0 <=? i) && (i <? Z.of_nat (length b))
        then (Returned tt, poke p i (Some v) m)
        else (Fault, m)
    | None => (Fault, m)
    end.

(** [new (p + i) T(v)]. *)
Definition placement_new (p : loc) (i : Z) (v : T) : M Mem unit :=
  record (Construct p i) ;; store p i v.

(** [*(p + i) = v]. *)
Definition assign (p : loc) (i : Z) (v : T) : M Mem unit :=
  record (Assign p i) ;; store p i v.

(** What a parameter of type [const T&] is bound to: an object that lives
    outside every slab (a literal, a temporary, a local), whose value no
    call on a queue changes, or the slot [p + i] of a slab, as in
    [q.push(q.data()[i])]. *)
Inductive ref : Type :=
  | Outside (v : T)
  | Slot (p : loc) (i : Z).

(** The value of the object a reference is bound to, at the moment it is
    used. *)
Definition deref (r : ref) : M Mem T :=
  match r with
  | Outside v => ret v
  | Slot p i => load p i
  end.

(** [(p + i)->~T()]. *)
Definition destroy (p : loc) (i : Z) : M Mem unit :=
  record (Destroy p i) ;; update (poke p i None).

(** [sizeof(T)]. *)
Variable sizeof_T : Z.

(** [static_cast<T *>(operator new(bytes))]: a fresh slab of raw slots, as
    many as [bytes] has room for.  Memory is taken to be unbounded: the
    request fails, with [std::bad_alloc], only when it asks for more than
    [PTRDIFF_MAX] bytes, which no allocator grants. *)
Definition operator_new (bytes : Z) : M Mem loc :=
  fun m =>
    if bytes <=? PTRDIFF_MAX then
      let p := fresh (dom (blocks m)) in
      (Returned p,
       {| blocks := <[p := replicate (Z.to_nat (bytes / sizeof_T)) None]> (blocks m);
          accesses := accesses m |})
    else (Thrown bad_alloc, m).

(** ** The class *)

Record Queue : Type := mkQueue {
  m_data : loc;
  m_filled : Z;
  m_capacity : Z
}.

(** A member function runs on the object it is called on and the heap. *)
Record state : Type := mkState {
  this : Queue;
  mem : Mem
}.

Definition in_mem {A : Type} (m : M Mem A) : M state A :=
  fun st =>
    let (r, h) := m (mem st) in
    (r, {| this := this st; mem := h |}).

Definition get_this : M state Queue := fun st => (Returned (this st), st).

Definition set_m_filled (n : Z) : M state unit :=
  fun st =>
    (Returned tt,
     {| this := {| m_data := m_data (this st);
                   m_filled := n;
                   m_capacity := m_capacity (this st) |};
        mem := mem st |}).

(** *** Synchronisation, for one thread *)

(** [cv.wait(lck, pred)]: returns once [pred] holds; with no other thread to
    make it hold, a wait on a false predicate never returns. *)
Definition cv_wait (pred : Queue -> bool) : M state unit :=
  fun st => if pred (this st) then (Returned tt, st) else (Blocked, st).

(** [cv.wait_for(lck, d, pred)]: the value of [pred] when the wait ends; with
    no other thread, that is its value at the call, whatever [d]. *)
Definition cv_wait_for (d : Z) (pred : Queue -> bool) : M state bool :=
  fun st => (Returned (pred (this st)), st).

(** [cv.notify_one()]: nobody is waiting. *)
Definition cv_notify_one : M state unit := ret tt.

(** *** Constructors *)

(** [Queue(int size)], queue.h lines 29-33.  [m_data] starts as [nullptr]
    and is set by the body before the object exists for anyone. *)
Definition Queue_ctor (size : Z) : M Mem Queue :=
  let* p := operator_new (size_t_mul (size_t_of_int size) sizeof_T) in
  ret {| m_data := p; m_filled := 0; m_capacity := size |}.

(** [Queue(const Queue &src)], queue.h lines 42-47. *)
Definition Queue_copy (src : Queue) : M Mem Queue :=
  let* p := operator_new (size_t_mul (size_t_of_int (m_capacity src)) sizeof_T) in
  for_range 0 (m_filled src)
    (fun i => let* v := load (m_data src) i in placement_new p i v) ;;
  ret {| m_data := p; m_filled := m_filled src; m_capacity := m_capacity src |}.

(** The constructors of the class.  [Queue() = delete] leaves no third one:
    an object is made from a size or from another queue. *)
Inductive constructor_call : Type :=
  | FromSize (size : Z)
  | FromQueue (src : Queue).

Definition construct (c : constructor_call) : M Mem Queue :=
  match c with
  | FromSize size => Queue_ctor size
  | FromQueue src => Queue_copy src
  end.

(** *** Member functions *)

(** The loop shared by [push], [pop] and [popWithTimeout]:
    [for (int i = 1; i < m_filled; i++) *(m_data + i - 1) = *(m_data + i);] *)
Definition shift_down (q : Queue) : M state unit :=
  for_range 1 (m_filled q)
    (fun i =>
       let* v := in_mem (load (m_data q) i) in
       in_mem (assign (m_data q) (i - 1) v)).

(** [void push(const T& element)], queue.h lines 74-94.  [element] is read
    where the source names it: in the copy construction of line 79, and in
    the assignment of line 89, after the loop. *)
Definition push (element : ref) : M state unit :=
  let* q := get_this in
  (if m_filled q <? m_capacity q then
     (let* v := in_mem (deref element) in
      in_mem (placement_new (m_data q) (m_filled q) v)) ;;
     set_m_filled (m_filled q + 1)
   else
     shift_down q ;;
     let* v := in_mem (deref element) in
     in_mem (assign (m_data q) (m_filled q - 1) v)) ;;
  cv_notify_one.

(** [T pop()], queue.h lines 104-121. *)
Definition pop : M state T :=
  cv_wait (fun q => negb (m_filled q =? 0)) ;;
  let* q := get_this in
  let* popped := in_mem (load (m_data q) 0) in
  shift_down q ;;
  in_mem (destroy (m_data q) (m_filled q)) ;;
  set_m_filled (m_filled q - 1) ;;
  ret popped.

(** [T popWithTimeout(int milliseconds_val)], queue.h lines 136-157. *)
Definition popWithTimeout (milliseconds_val : Z) : M state T :=
  let* not_empty := cv_wait_for milliseconds_val (fun q => negb (m_filled q =? 0)) in
  (if negb not_empty then
     throw (system_error operation_would_block "Queue: pop() timeout")
   else ret tt) ;;
  let* q := get_this in
  let* popped := in_mem (load (m_data q) 0) in
  shift_down q ;;
  in_mem (destroy (m_data q) (m_filled q)) ;;
  set_m_filled (m_filled q - 1) ;;
  ret popped.

(** [int count() const], [int size() const], [const T *data() const]. *)
Definition count (q : Queue) : Z := m_filled q.
Definition size (q : Queue) : Z := m_capacity q.
Definition data (q : Queue) : loc := m_data q.

End Queue.

Arguments Mem T : clear implicits.

Abbreviation slab T := (list (option T)).
Arguments state T : clear implicits.
Arguments ref T : clear implicits.


(** ** Vocabulary of the statements *)

Section Vocabulary.

Context {T : Type}.

(** [*(q.data() + i)], the way a caller reads an element. *)
Definition inspect (q : Queue) (i : Z) : M (Mem T) T := load (data q) i.

(** What the reading loop of the tests collects:
    [for (int i = 0; i < q.count(); i++) obtained.push_back(q.data()[i]);]
    ([None] when one of these slots holds no object). *)
Definition snapshot (q : Queue) (m : Mem T) : option (list T) :=
  mapM (fun i => peek (data q) i m) (seqZ 0 (count q)).

(** [q] is well formed in [m] and holds [xs], oldest first: its slab has
    [m_capacity] slots, and the first [m_filled] of them are the objects
    [xs]. *)
Definition holds (q : Queue) (m : Mem T) (xs : list T) : Prop :=
  exists b : slab T,
    blocks m !! m_data q = Some b /\
    Z.of_nat (length b) = m_capacity q /\
    Z.of_nat (length xs) = m_filled q /\
    take (length xs) b = Some <$> xs.

(** The slab after [k] rounds of the shifting loop started at index
    [j + 1]: slots [j .. j+k-1] have taken the values of their right
    neighbours. *)
Definition shifted (j k : nat) (b : slab T) : slab T :=
  take j b ++ take k (drop (S j) b) ++ drop (j + k) b.

(** Calls on one queue.  [Push x] is a push of an object [x] that lives
    outside the slabs, as the argument of every push of the tests and of
    main.cpp does. *)
Inductive call : Type :=
  | Push (x : T)
  | Pop
  | PopWithTimeout (d : Z).

Definition do_call (c : call) : M (state T) (option T) :=
  match c with
  | Push x => push (Outside x) ;; ret None
  | Pop => let* v := pop in ret (Some v)
  | PopWithTimeout d => let* v := popWithTimeout d in ret (Some v)
  end.

(** A sequence of calls and their outcomes, each call run from the state
    the previous one left, whatever its outcome was (after a call that
    waits for ever, the calls that follow are those of other threads). *)
Fixpoint run (cs : list call) (st : state T) : list (outcome (option T)) * state T :=
  match cs with
  | [] => ([], st)
  | c :: cs' =>
      let (r, st1) := do_call c st in
      let (rs, st2) := run cs' st1 in
      (r :: rs, st2)
  end.

(** [st'] differs from [st] at most in the slab at [p] and in what was
    recorded: the object and every other slab are as they were. *)
Definition quiet_on (p : loc) (st st' : state T) : Prop :=
  this st' = this st /\
  dom (blocks (mem st')) = dom (blocks (mem st)) /\
  forall p', p' <> p -> blocks (mem st') !! p' = blocks (mem st) !! p'.

(** What calls on the object of [st] can lead to: the same slab and
    capacity, a count within bounds if it was, and every slab but its own
    as it was. *)
Definition stays (st st' : state T) : Prop :=
  m_data (this st') = m_data (this st) /\
  m_capacity (this st') = m_capacity (this st) /\
  (0 <= m_filled (this st) <= m_capacity (this st) ->
   0 <= m_filled (this st') <= m_capacity (this st')) /\
  dom (blocks (mem st')) = dom (blocks (mem st)) /\
  forall p', p' <> m_data (this st) ->
    blocks (mem st') !! p' = blocks (mem st) !! p'.

(** The call never ends in an exception. *)
Definition never_throws {S A : Type} (c : M S A) : Prop :=
  forall s e, (c s).1 <> Thrown e.

(** What pushing [l], in order, into an empty queue of capacity [c] leaves
    in it: the last [c] elements of [l]. *)
Definition kept (c : Z) (l : list T) : list T :=
  drop (length l - Z.to_nat c) l.

End Vocabulary.

Arguments call T : clear implicits.

(** ** [Queue<int>], as the tests instantiate it *)

Definition sizeof_int : Z := 4.

(** A heap with no slab in it and nothing done yet. *)
Definition fresh_heap : Mem Z := mkMem ∅ [].

(** What [Queue<int> queue(n)] makes on the fresh heap: the object, and the
    heap with its slab of [n] raw slots. *)
Definition made (n : nat) : state Z :=
  mkState (mkQueue 1 0 (Z.of_nat n))
          (mkMem {[ 1%positive := replicate n None ]} []).

(** The state after the calls [cs] on [Queue<int> queue(n)]. *)
Definition after (n : nat) (cs : list (call Z)) : state Z :=
  (run cs (made n)).2.


(** States the test cases pass through. *)
Definition after_1_2_3 : state Z := after 3 [Push 1; Push 2; Push 3].
Definition after_7 : state Z := after 1 [Push 7].
Definition after_1_3_2_6 : state Z := after 5 [Push 1; Push 3; Push 2; Push 6].
Definition after_2_3 : state Z := after 5 [Push 2; Push 3].
Definition after_1_2_pop : state Z := after 2 [Push 1; Push 2; Pop].
(** ** The rest of the class, and its callers *)

Section Lifetime.

Context {T : Type}.

(** [operator delete(p)]: the slab is given back. *)
Definition operator_delete (p : loc) : M (Mem T) unit :=
  update (fun m => {| blocks := delete p (blocks m); accesses := accesses m |}).

(** [cv.notify_all()]: nobody is waiting. *)
Definition cv_notify_all : M (state T) unit := ret tt.

(** [~Queue()], queue.h lines 54-64.  The object is [this] of the state it
    runs on. *)
Definition Queue_dtor : M (state T) unit :=
  let* q := get_this in
  for_range 0 (m_filled q) (fun i => in_mem (destroy (m_data q) i)) ;;
  in_mem (operator_delete (m_data q)) ;;
  cv_notify_all.

(** The slots the code constructs an object in, most recent first. *)
Fixpoint constructs (l : list access) : list (loc * Z) :=
  match l with
  | [] => []
  | Construct p i :: l' => (p, i) :: constructs l'
  | _ :: l' => constructs l'
  end.

(** What the shifting loop of a queue with [n] elements on the slab [p]
    records, most recent first: for [i] from 1 to [n - 1], a read of slot
    [i] and then an assignment to slot [i - 1]. *)
Definition shift_trace (p : loc) (n : Z) : list access :=
  flat_map (fun i => [Assign p (i - 1); Read p i]) (reverse (seqZ 1 (n - 1))).

(** The slots [lo], ..., [lo + n - 1] of the slab [p], last first. *)
Definition slots_down (p : loc) (lo n : Z) : list (loc * Z) :=
  reverse ((fun i => (p, i)) <$> seqZ lo n).

(** *** The reader of main.cpp and test.cpp *)

(** What [read] works on: the queue it is given and the vector [elements]. *)
Record reader : Type := mkReader {
  queue : state T;
  elements : list T
}.

Definition on_queue {A : Type} (c : M (state T) A) : M reader A :=
  fun r =>
    let (o, st) := c (queue r) in
    (o, {| queue := st; elements := elements r |}).

(** [elements.push_back(v)]. *)
Definition push_back (v : T) : M reader unit :=
  fun r => (Returned tt, {| queue := queue r; elements := elements r ++ [v] |}).

(** [std::this_thread::sleep_for(std::chrono::seconds(s))]: time passes, no
    state changes. *)
Definition sleep_for (s : Z) : M reader unit := ret tt.

(** [void read(Queue<T> &queue, std::vector<T> &elements)], main.cpp lines
    8-16 and test.cpp lines 102-111. *)
Definition read : M reader unit :=
  (let* v := on_queue pop in push_back v) ;;
  sleep_for 2 ;;
  (let* v := on_queue pop in push_back v) ;;
  (let* v := on_queue pop in push_back v) ;;
  (let* v := on_queue pop in push_back v).

End Lifetime.

Arguments reader T : clear implicits.

(** More states of [Queue<int>]. *)
Definition after_1_2 : state Z := after 3 [Push 1; Push 2].
Definition reader_5 : reader Z :=
  mkReader (after 5 [Push 1; Push 2; Push 3; Push 4; Push 5]) [].
Definition reader_2 : reader Z := mkReader (after 5 [Push 1; Push 2]) [9].

(** * Verification *)

(** ** The monad *)

Lemma bind_Returned {S A B : Type} (m : M S A) (k : A -> M S B) s a s' :
  m s = (Returned a, s') -> bind m k s = k a s'.
Proof. intros H. unfold bind. now rewrite H. Qed.

Lemma bind_not_Returned {S A B : Type} (m : M S A) (k : A -> M S B) s :
  (forall a, fst (m s) <> Returned a) ->
  snd (bind m k s) = snd (m s).
Proof.
  intros H. unfold bind. destruct (m s) as [[a| | |] s']; simpl in *; try reflexivity.
  now destruct (H a).
Qed.

Lemma for_each_app {S : Type} (l1 l2 : list Z) (body : Z -> M S unit) s s' :
  for_each l1 body s = (Returned tt, s') ->
  for_each (l1 ++ l2) body s = for_each l2 body s'.
Proof.
  revert s. induction l1 as [|i l1 IH]; simpl; intros s H.
  - unfold ret in H. now inversion H.
  - unfold bind in *. destruct (body i s) as [[[]| | |] s1]; try discriminate.
    now apply IH.
Qed.

(** ** Slots and slabs *)

Section Memory.

Context {T : Type}.
Implicit Types (b : slab T) (m : Mem T) (p : loc) (i : Z) (v : T) (q : Queue).

Lemma slot_at_nat b (n : nat) : slot_at b (Z.of_nat n) = b !! n.
Proof.
  unfold slot_at. destruct (Z.leb_spec 0 (Z.of_nat n)); [|lia].
  now rewrite Nat2Z.id.
Qed.

Lemma set_slot_nat b (n : nat) s : set_slot b (Z.of_nat n) s = <[n := s]> b.
Proof.
  unfold set_slot. destruct (Z.leb_spec 0 (Z.of_nat n)); [|lia].
  now rewrite Nat2Z.id.
Qed.

Lemma set_slot_length b i s : length (set_slot b i s) = length b.
Proof. unfold set_slot. destruct (0 <=? i); [apply length_insert | reflexivity]. Qed.

Lemma set_slot_outside b i s :
  ~ (0 <= i < Z.of_nat (length b)) -> set_slot b i s = b.
Proof.
  intros H. unfold set_slot. destruct (Z.leb_spec 0 i); [|reflexivity].
  apply list_insert_ge. lia.
Qed.

Lemma peek_nat m p b (n : nat) :
  blocks m !! p = Some b ->
  peek p (Z.of_nat n) m = default None (b !! n).
Proof.
  intros H. unfold peek. rewrite H, slot_at_nat. now destruct (b !! n).
Qed.

Lemma poke_blocks m p b i s :
  blocks m !! p = Some b ->
  blocks (poke p i s m) = <[p := set_slot b i s]> (blocks m).
Proof.
  intros H. unfold poke; simpl. apply map_eq. intros p'.
  rewrite lookup_alter, lookup_insert.
  destruct (decide (p = p')) as [<-|]; [now rewrite H | reflexivity].
Qed.

Lemma poke_other m p p' i s :
  p' <> p -> blocks (poke p i s m) !! p' = blocks m !! p'.
Proof. intros H. unfold poke; simpl. now apply lookup_alter_ne. Qed.

Lemma poke_dom m p i s : dom (blocks (poke p i s m)) = dom (blocks m).
Proof. unfold poke; simpl. apply dom_alter_L. Qed.

Lemma poke_accesses m p i s : accesses (poke p i s m) = accesses m.
Proof. reflexivity. Qed.

(** What each access does to a state. *)

Lemma load_live q m p b (n : nat) v :
  blocks m !! p = Some b ->
  b !! n = Some (Some v) ->
  in_mem (load p (Z.of_nat n)) (mkState q m) =
    (Returned v, mkState q (mkMem (blocks m) (Read p (Z.of_nat n) :: accesses m))).
Proof.
  intros Hb Hn. unfold in_mem, load, bind, record; simpl.
  erewrite peek_nat by exact Hb. now rewrite Hn.
Qed.

Lemma store_in_slab m p b (n : nat) v :
  blocks m !! p = Some b ->
  (n < length b)%nat ->
  store p (Z.of_nat n) v m = (Returned tt, poke p (Z.of_nat n) (Some v) m).
Proof.
  intros Hb Hn. unfold store. rewrite Hb.
  destruct (Z.leb_spec 0 (Z.of_nat n)); [|lia].
  destruct (Z.ltb_spec (Z.of_nat n) (Z.of_nat (length b))); [|lia].
  reflexivity.
Qed.

Lemma store_outside m p i v :
  (forall b, blocks m !! p = Some b -> ~ (0 <= i < Z.of_nat (length b))) ->
  store p i v m = (Fault, m).
Proof.
  intros H. unfold store. destruct (blocks m !! p) as [b|]; [|reflexivity].
  specialize (H b eq_refl).
  destruct (Z.leb_spec 0 i); [|reflexivity].
  destruct (Z.ltb_spec i (Z.of_nat (length b))); [lia | reflexivity].
Qed.

(** A store returns on the poked heap, or faults on the heap as it is. *)
Lemma store_cases m p i v :
  store p i v m = (Returned tt, poke p i (Some v) m) \/ store p i v m = (Fault, m).
Proof.
  unfold store. destruct (blocks m !! p) as [b|]; [|now right].
  destruct ((0 <=? i) && (i <? Z.of_nat (length b))); [now left | now right].
Qed.

Lemma placement_new_eq q m p b (n : nat) v :
  blocks m !! p = Some b ->
  (n < length b)%nat ->
  in_mem (placement_new p (Z.of_nat n) v) (mkState q m) =
    (Returned tt,
     mkState q (mkMem (blocks (poke p (Z.of_nat n) (Some v) m))
                      (Construct p (Z.of_nat n) :: accesses m))).
Proof.
  intros Hb Hn. unfold in_mem, placement_new, bind, record. cbn [mem this].
  rewrite (store_in_slab _ p b n v) by assumption. reflexivity.
Qed.

Lemma assign_eq q m p b (n : nat) v :
  blocks m !! p = Some b ->
  (n < length b)%nat ->
  in_mem (assign p (Z.of_nat n) v) (mkState q m) =
    (Returned tt,
     mkState q (mkMem (blocks (poke p (Z.of_nat n) (Some v) m))
                      (Assign p (Z.of_nat n) :: accesses m))).
Proof.
  intros Hb Hn. unfold in_mem, assign, bind, record. cbn [mem this].
  rewrite (store_in_slab _ p b n v) by assumption. reflexivity.
Qed.

(** A store that returns was inside the slab, and what it leaves is known. *)
Lemma assign_returns q m p i v st' :
  in_mem (assign p i v) (mkState q m) = (Returned tt, st') ->
  st' = mkState q (mkMem (blocks (poke p i (Some v) m)) (Assign p i :: accesses m)).
Proof.
  unfold in_mem, assign, bind, record. cbn [mem this].
  destruct (store_cases (mkMem (blocks m) (Assign p i :: accesses m)) p i v) as [E|E];
    rewrite E; [intros [= <-]; reflexivity | discriminate].
Qed.

Lemma placement_new_returns q m p i v st' :
  in_mem (placement_new p i v) (mkState q m) = (Returned tt, st') ->
  st' = mkState q (mkMem (blocks (poke p i (Some v) m)) (Construct p i :: accesses m)).
Proof.
  unfold in_mem, placement_new, bind, record. cbn [mem this].
  destruct (store_cases (mkMem (blocks m) (Construct p i :: accesses m)) p i v) as [E|E];
    rewrite E; [intros [= <-]; reflexivity | discriminate].
Qed.

Lemma destroy_eq q m p i :
  in_mem (destroy p i) (mkState q m) =
    (Returned tt,
     mkState q (mkMem (blocks (poke p i None m)) (Destroy p i :: accesses m))).
Proof. reflexivity. Qed.

End Memory.

Section Shift.

Context {T : Type}.
Implicit Types (b : slab T) (m : Mem T) (p : loc) (i : Z) (v : T) (q : Queue).

Lemma destroys_app (l1 l2 : list access) :
  destroys (l1 ++ l2) = destroys l1 ++ destroys l2.
Proof.
  induction l1 as [|[] l1 IH]; simpl; auto. now rewrite IH.
Qed.

Lemma writes_app (l1 l2 : list access) :
  writes (l1 ++ l2) = writes l1 ++ writes l2.
Proof.
  induction l1 as [|[] l1 IH]; simpl; auto; now rewrite IH.
Qed.

Lemma reads_app (l1 l2 : list access) :
  reads (l1 ++ l2) = reads l1 ++ reads l2.
Proof.
  induction l1 as [|[] l1 IH]; simpl; auto; now rewrite IH.
Qed.

Lemma shifted_zero j b : shifted j 0 b = b.
Proof.
  unfold shifted. rewrite Nat.add_0_r. simpl. apply take_drop.
Qed.

Lemma shifted_step j k b v :
  b !! S j = Some (Some v) ->
  shifted (S j) k (<[j := Some v]> b) = shifted j (S k) b.
Proof.
  intros Hv. unfold shifted.
  assert (Hj : (j < length b)%nat) by (apply lookup_lt_Some in Hv; lia).
  rewrite (take_S_r _ j (Some v)) by (now apply list_lookup_insert_eq).
  rewrite take_insert_ge by lia.
  rewrite !drop_insert_lt by lia.
  rewrite (drop_S b (Some v) (S j)) by exact Hv.
  rewrite <- Nat.add_succ_comm. simpl. now rewrite <- app_assoc.
Qed.

Lemma shift_loop q0 q (k : nat) : forall (j : nat) b m,
  blocks m !! m_data q = Some b ->
  (forall n : nat, (j < n <= j + k)%nat -> exists v, b !! n = Some (Some v)) ->
  exists l,
    for_each (seqZ (Z.of_nat (S j)) (Z.of_nat k))
      (fun i => let* v := in_mem (load (m_data q) i) in
                in_mem (assign (m_data q) (i - 1) v))
      (mkState q0 m)
    = (Returned tt,
       mkState q0 (mkMem (<[m_data q := shifted j k b]> (blocks m)) (l ++ accesses m)))
    /\ destroys l = []
    /\ Forall (fun w => w.1 = m_data q /\ 0 <= w.2 < Z.of_nat (length b)) (writes l)
    /\ Forall (fun r => r.1 = m_data q /\ 0 <= r.2 < Z.of_nat (length b)) (reads l).
Proof.
  induction k as [|k IH]; intros j b m Hb Hlive.
  - exists []. simpl. rewrite shifted_zero, insert_id by exact Hb.
    destruct m; repeat split; constructor.
  - destruct (Hlive (S j)) as [v Hv]; [lia|].
    assert (Hj : (S j < length b)%nat) by (now apply lookup_lt_Some in Hv).
    rewrite seqZ_cons by lia.
    replace (Z.succ (Z.of_nat (S j))) with (Z.of_nat (S (S j))) by lia.
    replace (Z.pred (Z.of_nat (S k))) with (Z.of_nat k) by lia.
    cbn [for_each].
    replace (Z.of_nat (S j) - 1) with (Z.of_nat j) by lia.
    erewrite bind_Returned; cycle 1.
    { erewrite bind_Returned by (eapply load_live; eauto).
      apply (assign_eq _ _ _ b); [exact Hb | lia]. }
    set (m1 := mkMem (blocks (poke _ _ _ _)) _).
    assert (Hb1 : blocks m1 !! m_data q = Some (<[j := Some v]> b)).
    { subst m1; simpl. rewrite lookup_alter_eq; simpl. rewrite Hb; simpl.
      now rewrite set_slot_nat. }
    destruct (IH (S j) (<[j := Some v]> b) m1 Hb1) as (l & Hrun & Hd & Hw & Hr).
    { intros n Hn. destruct (Hlive n) as [w Hw]; [lia|].
      exists w. rewrite list_lookup_insert_ne by lia. exact Hw. }
    exists (l ++ [Assign (m_data q) (Z.of_nat j); Read (m_data q) (Z.of_nat (S j))]).
    rewrite Hrun. rewrite shifted_step by exact Hv.
    rewrite length_insert in Hw, Hr.
    split; [|split; [|split]].
    + f_equal. f_equal. f_equal.
      * subst m1; simpl. apply map_eq. intros p'.
        rewrite !lookup_insert, lookup_alter.
        destruct (decide (m_data q = p')); reflexivity.
      * subst m1; simpl. now rewrite <- app_assoc.
    + rewrite destroys_app, Hd. reflexivity.
    + rewrite writes_app. apply Forall_app. split; [exact Hw|].
      simpl. repeat constructor; simpl; lia.
    + rewrite reads_app. apply Forall_app. split; [exact Hr|].
      simpl. repeat constructor; simpl; lia.
Qed.

End Shift.

(** ** Well-formed queues *)

Section Behaviour.

Context {T : Type}.
Implicit Types (b : slab T) (m : Mem T) (p : loc) (i : Z) (v x : T) (q : Queue)
  (xs : list T) (st : state T).

Lemma holds_bounds q m xs : holds q m xs -> 0 <= m_filled q <= m_capacity q.
Proof.
  intros (b & _ & Hcap & Hfill & Htake).
  apply (f_equal length) in Htake.
  rewrite length_take, length_fmap in Htake. lia.
Qed.

Lemma holds_lookup q m xs b (n : nat) x :
  blocks m !! m_data q = Some b ->
  take (length xs) b = Some <$> xs ->
  xs !! n = Some x ->
  b !! n = Some (Some x).
Proof.
  intros Hb Htake Hn.
  assert (Hlt : (n < length xs)%nat) by (now apply lookup_lt_Some in Hn).
  rewrite <- (lookup_take_lt b (length xs) n) by exact Hlt.
  rewrite Htake, list_lookup_fmap, Hn. reflexivity.
Qed.

Lemma holds_peek q m xs (n : nat) x :
  holds q m xs -> xs !! n = Some x -> peek (m_data q) (Z.of_nat n) m = Some x.
Proof.
  intros (b & Hb & _ & _ & Htake) Hn.
  erewrite peek_nat by exact Hb.
  erewrite holds_lookup by eauto. reflexivity.
Qed.

Lemma holds_snapshot q m xs : holds q m xs -> snapshot q m = Some xs.
Proof.
  intros H. unfold snapshot, count, data.
  apply mapM_Some. 
  destruct H as (b & Hb & Hcap & Hfill & Htake) eqn:E. clear E.
  rewrite <- Hfill.
  apply Forall2_same_length_lookup_2.
  - rewrite length_seqZ. lia.
  - intros n i x Hi Hx. apply lookup_seqZ in Hi as [-> _]. simpl.
    eapply holds_peek; [|exact Hx]. exists b; auto.
Qed.

Lemma holds_frame q m m' xs :
  holds q m xs ->
  blocks m' !! m_data q = blocks m !! m_data q ->
  holds q m' xs.
Proof.
  intros (b & Hb & H) Heq. exists b. split; [congruence | exact H].
Qed.

(** *** push *)

Lemma in_mem_eq {A : Type} (c : M (Mem T) A) q m r h :
  c m = (r, h) -> in_mem c (mkState q m) = (r, mkState q h).
Proof. intros H. unfold in_mem. cbn [mem this]. now rewrite H. Qed.

(** Reading through a reference changes no slab. *)
Lemma deref_blocks (element : ref T) m r mr :
  deref element m = (r, mr) -> blocks mr = blocks m.
Proof.
  destruct element as [v|p i]; cbn [deref].
  - intros [= _ <-]. reflexivity.
  - unfold load, bind, record; simpl. destruct (peek p i _); intros [= _ <-]; reflexivity.
Qed.

Lemma deref_Outside (x : T) m : deref (Outside x) m = (Returned x, m).
Proof. reflexivity. Qed.

Lemma deref_Slot p (n : nat) m b x :
  blocks m !! p = Some b ->
  b !! n = Some (Some x) ->
  deref (Slot p (Z.of_nat n)) m
    = (Returned x, mkMem (blocks m) (Read p (Z.of_nat n) :: accesses m)).
Proof.
  intros Hb Hn. unfold deref, load, bind, record; simpl.
  erewrite peek_nat by exact Hb. now rewrite Hn.
Qed.

(** Push with room, whatever [element] is bound to: what is stored is the
    value it has when the call begins. *)
Lemma push_room_ref (element : ref T) x mr q m xs :
  holds q m xs ->
  m_filled q < m_capacity q ->
  deref element m = (Returned x, mr) ->
  exists m',
    push element (mkState q m)
      = (Returned tt, mkState (mkQueue (m_data q) (m_filled q + 1) (m_capacity q)) m')
    /\ holds (mkQueue (m_data q) (m_filled q + 1) (m_capacity q)) m' (xs ++ [x])
    /\ accesses m' = Construct (m_data q) (m_filled q) :: accesses mr
    /\ dom (blocks m') = dom (blocks m)
    /\ (forall p', p' <> m_data q -> blocks m' !! p' = blocks m !! p').
Proof.
  intros (b & Hb & Hcap & Hfill & Htake) Hlt Hde.
  pose proof (deref_blocks _ _ _ _ Hde) as Hbl.
  assert (Hbr : blocks mr !! m_data q = Some b) by (now rewrite Hbl).
  assert (Hn : (length xs < length b)%nat) by lia.
  set (m' := mkMem (blocks (poke (m_data q) (m_filled q) (Some x) mr))
                   (Construct (m_data q) (m_filled q) :: accesses mr)).
  assert (E1 : (let* v := in_mem (deref element) in
                in_mem (placement_new (m_data q) (m_filled q) v)) (mkState q m)
               = (Returned tt, mkState q m')).
  { rewrite (bind_Returned _ _ _ _ _ (in_mem_eq _ q m _ _ Hde)).
    subst m'. rewrite <- Hfill. apply (placement_new_eq _ _ _ b); assumption. }
  exists m'. split; [|split; [|split; [|split]]].
  - unfold push. unfold bind at 1. unfold get_this. cbn [this].
    destruct (Z.ltb_spec (m_filled q) (m_capacity q)); [|lia].
    erewrite bind_Returned; [reflexivity|].
    rewrite (bind_Returned _ _ _ _ _ E1). reflexivity.
  - exists (<[length xs := Some x]> b). subst m'.
    cbn [blocks mem poke m_data m_filled m_capacity].
    rewrite lookup_alter_eq, Hbr. cbn [fmap option_fmap option_map].
    rewrite <- Hfill, set_slot_nat.
    rewrite length_insert, length_app. simpl.
    split; [reflexivity|]. split; [exact Hcap|]. split; [lia|].
    rewrite Nat.add_1_r.
    rewrite (take_S_r _ _ (Some x)) by (apply list_lookup_insert_eq; lia).
    rewrite take_insert_ge by lia.
    now rewrite Htake, fmap_app.
  - reflexivity.
  - subst m'. cbn [blocks mem poke]. rewrite dom_alter_L. now rewrite Hbl.
  - intros p' Hp'. subst m'. cbn [blocks mem poke].
    rewrite lookup_alter_ne by congruence. now rewrite Hbl.
Qed.

Lemma push_room x q m xs :
  holds q m xs ->
  m_filled q < m_capacity q ->
  exists m',
    push (Outside x) (mkState q m)
      = (Returned tt, mkState (mkQueue (m_data q) (m_filled q + 1) (m_capacity q)) m')
    /\ holds (mkQueue (m_data q) (m_filled q + 1) (m_capacity q)) m' (xs ++ [x])
    /\ accesses m' = Construct (m_data q) (m_filled q) :: accesses m
    /\ dom (blocks m') = dom (blocks m)
    /\ (forall p', p' <> m_data q -> blocks m' !! p' = blocks m !! p').
Proof.
  intros H Hlt. exact (push_room_ref (Outside x) x m q m xs H Hlt eq_refl).
Qed.

Lemma shift_down_holds q0 q m b xs :
  blocks m !! m_data q = Some b ->
  Z.of_nat (length xs) = m_filled q ->
  take (length xs) b = Some <$> xs ->
  exists l,
    shift_down q (mkState q0 m)
      = (Returned tt,
         mkState q0 (mkMem (<[m_data q := shifted 0 (length xs - 1) b]> (blocks m))
                           (l ++ accesses m)))
    /\ destroys l = []
    /\ Forall (fun w => w.1 = m_data q /\ 0 <= w.2 < Z.of_nat (length b)) (writes l)
    /\ Forall (fun r => r.1 = m_data q /\ 0 <= r.2 < Z.of_nat (length b)) (reads l).
Proof.
  intros Hb Hfill Htake.
  unfold shift_down, for_range.
  replace (m_filled q - 1) with (Z.of_nat (length xs) - 1) by lia.
  destruct xs as [|x0 xs].
  - exists []. simpl. rewrite shifted_zero, insert_id by exact Hb.
    destruct m; repeat split; constructor.
  - replace (Z.of_nat (length (x0 :: xs)) - 1) with (Z.of_nat (length xs))
      by (simpl length; lia).
    replace (length (x0 :: xs) - 1)%nat with (length xs) by (simpl; lia).
    apply (shift_loop q0 q (length xs) 0 b m Hb).
    intros n Hn.
    destruct (lookup_lt_is_Some_2 (x0 :: xs) n) as [y Hy]; [simpl; lia|].
    exists y. eapply holds_lookup; eauto.
Qed.

(** Push on a full queue, whatever [element] is bound to: what is stored
    in the last slot is the value [element] has after the loop has moved
    the elements. *)
Lemma push_full_core (element : ref T) y (lr : list access) q m xs :
  holds q m xs ->
  m_filled q = m_capacity q ->
  1 <= m_capacity q ->
  (forall m1,
     blocks m1 !! m_data q
       = Some ((Some <$> drop 1 xs) ++ (Some <$> drop (length xs - 1) xs)) ->
     deref element m1 = (Returned y, mkMem (blocks m1) (lr ++ accesses m1))) ->
  exists m' l,
    push element (mkState q m) = (Returned tt, mkState q m')
    /\ holds q m' (drop 1 xs ++ [y])
    /\ accesses m' = Assign (m_data q) (m_capacity q - 1) :: lr ++ l ++ accesses m
    /\ destroys l = []
    /\ Forall (fun w => w.1 = m_data q /\ 0 <= w.2 < m_capacity q) (writes l)
    /\ Forall (fun r => r.1 = m_data q /\ 0 <= r.2 < m_capacity q) (reads l)
    /\ dom (blocks m') = dom (blocks m)
    /\ (forall p', p' <> m_data q -> blocks m' !! p' = blocks m !! p').
Proof.
  intros (b & Hb & Hcap & Hfill & Htake) Hfull Hpos Hde.
  destruct (shift_down_holds q q m b xs Hb Hfill Htake) as (l & Hrun & Hd & Hw & Hr).
  assert (Hlen : length xs = length b) by lia.
  assert (Hbx : b = Some <$> xs) by (rewrite <- Htake, Hlen; symmetry; apply take_ge; lia).
  assert (Hsh : shifted 0 (length xs - 1) b
                = (Some <$> drop 1 xs) ++ (Some <$> drop (length xs - 1) xs)).
  { unfold shifted. simpl. rewrite Hbx. rewrite <- !fmap_drop.
    rewrite take_ge; [reflexivity|]. rewrite length_fmap, length_drop. lia. }
  set (m1 := mkMem (<[m_data q := shifted 0 (length xs - 1) b]> (blocks m))
                   (l ++ accesses m)) in *.
  assert (Hb1 : blocks m1 !! m_data q
                = Some ((Some <$> drop 1 xs) ++ (Some <$> drop (length xs - 1) xs))).
  { subst m1. cbn [blocks]. now rewrite lookup_insert_eq, Hsh. }
  specialize (Hde m1 Hb1).
  set (mr := mkMem (blocks m1) (lr ++ accesses m1)) in *.
  assert (Hd1 : length (Some <$> drop 1 xs) = (length xs - 1)%nat)
    by (rewrite length_fmap, length_drop; lia).
  assert (Hlast : exists z, drop (length xs - 1) xs = [z]).
  { destruct (lookup_lt_is_Some_2 xs (length xs - 1)) as [z Hz]; [lia|].
    exists z. rewrite (drop_S _ z) by exact Hz.
    rewrite drop_ge by lia. reflexivity. }
  destruct Hlast as [z Hz]. rewrite Hz in Hb1. cbn [fmap list_fmap] in Hb1.
  eexists _, l. split; [|split; [|split; [|split; [|split; [|split; [|split]]]]]].
  - unfold push. unfold bind at 1. unfold get_this.
    cbn [this].
    destruct (Z.ltb_spec (m_filled q) (m_capacity q)); [lia|].
    erewrite bind_Returned; [reflexivity|].
    erewrite bind_Returned by exact Hrun. fold m1.
    erewrite bind_Returned by (apply in_mem_eq, Hde). fold mr.
    replace (m_filled q - 1) with (Z.of_nat (length xs - 1)) by lia.
    eapply assign_eq; [subst mr; cbn [blocks]; exact Hb1|].
    rewrite length_app, Hd1. simpl. lia.
  - exists ((Some <$> drop 1 xs) ++ [Some y]).
    cbn [blocks mem poke].
    rewrite lookup_alter_eq. subst mr. cbn [blocks]. rewrite Hb1.
    cbn [fmap option_fmap option_map].
    rewrite set_slot_nat.
    rewrite <- Hd1 at 1.
    rewrite insert_app_r_alt by lia. rewrite Nat.sub_diag.
    cbn [insert list_insert].
    split; [reflexivity|].
    rewrite length_app, Hd1. cbn [length].
    split; [lia|].
    rewrite length_app, length_drop. cbn [length].
    split; [lia|].
    rewrite take_ge by (rewrite length_app, Hd1; simpl; lia).
    now rewrite fmap_app.
  - cbn [accesses mem]. subst mr m1. cbn [accesses]. f_equal. f_equal. lia.
  - exact Hd.
  - rewrite <- Hcap. exact Hw.
  - rewrite <- Hcap. exact Hr.
  - cbn [blocks mem poke]. rewrite dom_alter_L. subst mr m1. cbn [blocks].
    rewrite dom_insert_L. apply elem_of_dom_2 in Hb.
    apply subseteq_union_1_L, singleton_subseteq_l, Hb.
  - intros p' Hp'. cbn [blocks mem poke]. subst mr m1. cbn [blocks].
    rewrite lookup_alter_ne, lookup_insert_ne by congruence. reflexivity.
Qed.

Lemma push_full x q m xs :
  holds q m xs ->
  m_filled q = m_capacity q ->
  1 <= m_capacity q ->
  exists m' l,
    push (Outside x) (mkState q m) = (Returned tt, mkState q m')
    /\ holds q m' (drop 1 xs ++ [x])
    /\ accesses m' = Assign (m_data q) (m_capacity q - 1) :: l ++ accesses m
    /\ destroys l = []
    /\ Forall (fun w => w.1 = m_data q /\ 0 <= w.2 < m_capacity q) (writes l)
    /\ Forall (fun r => r.1 = m_data q /\ 0 <= r.2 < m_capacity q) (reads l)
    /\ dom (blocks m') = dom (blocks m)
    /\ (forall p', p' <> m_data q -> blocks m' !! p' = blocks m !! p').
Proof.
  intros H Hfull Hpos.
  apply (push_full_core (Outside x) x [] q m xs H Hfull Hpos).
  intros m1 _. now destruct m1.
Qed.

(** The argument bound to the queue's own slot [i]: after the loop that
    slot holds what slot [i + 1] held, and that is what is stored. *)
Lemma push_full_own_slot (i : nat) y q m xs :
  holds q m xs ->
  m_filled q = m_capacity q ->
  xs !! S i = Some y ->
  exists m' l,
    push (Slot (m_data q) (Z.of_nat i)) (mkState q m) = (Returned tt, mkState q m')
    /\ holds q m' (drop 1 xs ++ [y])
    /\ accesses m'
         = Assign (m_data q) (m_capacity q - 1)
           :: Read (m_data q) (Z.of_nat i) :: l ++ accesses m
    /\ destroys l = []
    /\ dom (blocks m') = dom (blocks m)
    /\ (forall p', p' <> m_data q -> blocks m' !! p' = blocks m !! p').
Proof.
  intros H Hfull Hy.
  assert (Hlt : (S i < length xs)%nat) by (now apply lookup_lt_Some in Hy).
  assert (Hpos : 1 <= m_capacity q).
  { destruct H as (_ & _ & _ & Hfill & _). lia. }
  destruct (push_full_core (Slot (m_data q) (Z.of_nat i)) y
              [Read (m_data q) (Z.of_nat i)] q m xs H Hfull Hpos)
    as (m' & l & Hrun & Hh & Hacc & Hd & _ & _ & Hdom & Hfr).
  { intros m1 Hb1. eapply deref_Slot; [exact Hb1|].
    rewrite lookup_app_l by (rewrite length_fmap, length_drop; lia).
    rewrite list_lookup_fmap, lookup_drop. cbn [Nat.add]. now rewrite Hy. }
  exists m', l. repeat split; assumption.
Qed.

(** With no slot at all the code still takes the full-queue branch: the
    loop does nothing and the element is assigned to [m_data + 0 - 1],
    which is no slot. *)
Lemma push_no_capacity x q m :
  m_filled q = 0 ->
  m_capacity q = 0 ->
  push (Outside x) (mkState q m)
    = (Fault, mkState q (mkMem (blocks m) (Assign (m_data q) (-1) :: accesses m))).
Proof.
  intros Hf Hc. unfold push, shift_down, for_range.
  unfold bind at 1. unfold get_this. cbn [this].
  rewrite Hf, Hc. cbn [Z.ltb Z.compare Z.sub Z.add Z.opp Z.pos_sub seqZ].
  unfold bind, in_mem, deref, ret, assign, bind, record. simpl.
  rewrite store_outside; [reflexivity|].
  intros b _. lia.
Qed.

(** *** pop and popWithTimeout *)

Lemma pop_spec q m x xs :
  holds q m (x :: xs) ->
  exists m' l,
    pop (mkState q m)
      = (Returned x, mkState (mkQueue (m_data q) (m_filled q - 1) (m_capacity q)) m')
    /\ holds (mkQueue (m_data q) (m_filled q - 1) (m_capacity q)) m' xs
    /\ accesses m'
         = Destroy (m_data q) (m_filled q) :: l ++ Read (m_data q) 0 :: accesses m
    /\ destroys l = []
    /\ Forall (fun w => w.1 = m_data q /\ 0 <= w.2 < m_capacity q) (writes l)
    /\ Forall (fun r => r.1 = m_data q /\ 0 <= r.2 < m_capacity q) (reads l)
    /\ dom (blocks m') = dom (blocks m)
    /\ (forall p', p' <> m_data q -> blocks m' !! p' = blocks m !! p')
    /\ peek (m_data q) (m_filled q - 1) m' = (x :: xs) !! length xs.
Proof.
  intros (b & Hb & Hcap & Hfill & Htake).
  set (m1 := mkMem (blocks m) (Read (m_data q) 0 :: accesses m)).
  destruct (shift_down_holds q q m1 b (x :: xs) Hb Hfill Htake)
    as (l & Hrun & Hd & Hw & Hr).
  assert (Hb0 : b !! 0%nat = Some (Some x)) by (eapply holds_lookup; eauto).
  assert (Hlen : (length xs < length b)%nat).
  { apply (f_equal length) in Htake.
    rewrite length_take, length_fmap in Htake. cbn [length] in Htake. lia. }
  cbn [length] in *.
  eexists _, l. split; [|split; [|split; [|split; [|split; [|split; [|split; [|split]]]]]]].
  - unfold pop. unfold bind at 1. unfold cv_wait. cbn [this].
    destruct (Z.eqb_spec (m_filled q) 0); [lia|]. cbn [negb].
    unfold bind at 1. unfold get_this.
    erewrite bind_Returned by (apply (load_live q m (m_data q) b 0 x Hb Hb0)).
    fold m1. erewrite bind_Returned by exact Hrun.
    erewrite bind_Returned by apply destroy_eq.
    reflexivity.
  - exists (set_slot (shifted 0 (S (length xs) - 1) b) (m_filled q) None).
    cbn [blocks mem poke m_data m_filled m_capacity].
    rewrite lookup_alter_eq, lookup_insert_eq. cbn [fmap option_fmap option_map].
    split; [reflexivity|].
    rewrite set_slot_length.
    replace (S (length xs) - 1)%nat with (length xs) by lia.
    assert (Hshl : length (shifted 0 (length xs) b) = length b).
    { unfold shifted. rewrite !length_app, length_take, length_take, !length_drop. simpl. lia. }
    split; [lia|]. split; [lia|].
    rewrite <- Hfill, set_slot_nat. rewrite take_insert_ge by lia.
    unfold shifted. rewrite take_0, app_nil_l, take_app_length'.
    + rewrite take_drop_commute.
      change (1 + length xs)%nat with (S (length xs)).
      rewrite Htake. reflexivity.
    + rewrite length_take, length_drop. lia.
  - reflexivity.
  - exact Hd.
  - rewrite <- Hcap. exact Hw.
  - rewrite <- Hcap. exact Hr.
  - cbn [blocks mem poke]. rewrite dom_alter_L, dom_insert_L.
    apply elem_of_dom_2 in Hb. subst m1. cbn [blocks].
    apply subseteq_union_1_L, singleton_subseteq_l, Hb.
  - intros p' Hp'. cbn [blocks mem poke this].
    rewrite lookup_alter_ne, lookup_insert_ne by congruence. reflexivity.
  - destruct (lookup_lt_is_Some_2 (x :: xs) (length xs)) as [y Hy]; [simpl; lia|].
    rewrite Hy. replace (m_filled q - 1) with (Z.of_nat (length xs)) by lia.
    erewrite peek_nat; cycle 1.
    { cbn [blocks mem poke this]. rewrite lookup_alter_eq, lookup_insert_eq.
      reflexivity. }
    rewrite <- Hfill, set_slot_nat, list_lookup_insert_ne by lia.
    replace (S (length xs) - 1)%nat with (length xs) by lia.
    unfold shifted. rewrite take_0, app_nil_l.
    rewrite lookup_app_r by (rewrite length_take, length_drop; lia).
    rewrite length_take, length_drop, lookup_drop.
    replace (0 + length xs + (length xs - length xs `min` (length b - 1)))%nat
      with (length xs) by lia.
    rewrite (holds_lookup q m (x :: xs) b (length xs) y Hb Htake Hy). reflexivity.
Qed.

(** With an element in the queue the timed wait is over at once, and what
    follows it in [popWithTimeout] is the text of [pop]. *)
Lemma popWithTimeout_nonempty d st :
  m_filled (this st) <> 0 -> popWithTimeout d st = pop st.
Proof.
  intros H.
  assert (Hp : negb (m_filled (this st) =? 0) = true)
    by (destruct (Z.eqb_spec (m_filled (this st)) 0); [contradiction | reflexivity]).
  unfold popWithTimeout, pop.
  rewrite (bind_Returned (cv_wait _) _ st tt st)
    by (unfold cv_wait; now rewrite Hp).
  rewrite (bind_Returned (cv_wait_for _ _) _ st true st)
    by (unfold cv_wait_for; now rewrite Hp).
  cbn [negb]. now rewrite (bind_Returned (ret tt) _ st tt st).
Qed.

Lemma popWithTimeout_empty d st :
  m_filled (this st) = 0 ->
  popWithTimeout d st
    = (Thrown (system_error operation_would_block "Queue: pop() timeout"), st).
Proof.
  intros H. unfold popWithTimeout.
  unfold bind at 1. unfold cv_wait_for.
  rewrite H. reflexivity.
Qed.

Lemma pop_empty st : m_filled (this st) = 0 -> pop st = (Blocked, st).
Proof.
  intros H. unfold pop. unfold bind at 1. unfold cv_wait.
  rewrite H. reflexivity.
Qed.

(** *** Sequences of calls *)

Lemma kept_short (c : Z) xs : Z.of_nat (length xs) <= c -> kept c xs = xs.
Proof.
  intros H. unfold kept. replace (length xs - Z.to_nat c)%nat with 0%nat by lia.
  reflexivity.
Qed.

Lemma kept_length (c : Z) xs : 0 <= c -> Z.of_nat (length (kept c xs)) <= c.
Proof. intros H. unfold kept. rewrite length_drop. lia. Qed.

Lemma kept_app (c : Z) (a l : list T) : kept c (kept c a ++ l) = kept c (a ++ l).
Proof.
  unfold kept. rewrite !length_app, length_drop.
  destruct (decide (length a <= Z.to_nat c)%nat) as [Hle|Hgt].
  - replace (length a - Z.to_nat c)%nat with 0%nat by lia.
    rewrite drop_0, Nat.sub_0_r. reflexivity.
  - replace (length a - (length a - Z.to_nat c) + length l - Z.to_nat c)%nat
      with (length l) by lia.
    replace (length a + length l - Z.to_nat c)%nat
      with ((length a - Z.to_nat c) + length l)%nat by lia.
    rewrite <- drop_drop. f_equal.
    rewrite drop_app_le by lia. reflexivity.
Qed.

Lemma push_holds x q m xs :
  holds q m xs ->
  1 <= m_capacity q ->
  exists q' m',
    push (Outside x) (mkState q m) = (Returned tt, mkState q' m')
    /\ holds q' m' (kept (m_capacity q) (xs ++ [x]))
    /\ m_capacity q' = m_capacity q
    /\ m_data q' = m_data q.
Proof.
  intros H Hpos. pose proof (holds_bounds _ _ _ H) as Hbd.
  pose proof H as (b & _ & _ & Hfill & _).
  destruct (decide (m_filled q < m_capacity q)) as [Hlt|Hge].
  - destruct (push_room x q m xs H Hlt) as (m' & Hrun & Hh & _).
    eexists _, m'. split; [exact Hrun|].
    rewrite kept_short by (rewrite length_app; simpl; lia). auto.
  - destruct (push_full x q m xs H) as (m' & l & Hrun & Hh & _); [lia|lia|].
    exists q, m'. split; [exact Hrun|].
    replace (kept (m_capacity q) (xs ++ [x])) with (drop 1 xs ++ [x]); [auto|].
    unfold kept. rewrite length_app. simpl.
    replace (length xs + 1 - Z.to_nat (m_capacity q))%nat with 1%nat by lia.
    rewrite drop_app_le by lia. reflexivity.
Qed.

Lemma run_app (cs1 cs2 : list (call T)) st :
  run (cs1 ++ cs2) st
    = ((run cs1 st).1 ++ (run cs2 (run cs1 st).2).1, (run cs2 (run cs1 st).2).2).
Proof.
  revert st. induction cs1 as [|c cs1 IH]; intros st; simpl.
  - now destruct (run cs2 st).
  - destruct (do_call c st) as [r st1]. rewrite IH.
    destruct (run cs1 st1) as [rs st2]. simpl.
    now destruct (run cs2 st2).
Qed.

Lemma run_pushes (l : list T) : forall q m xs,
  holds q m xs ->
  1 <= m_capacity q ->
  exists q' m',
    run (Push <$> l) (mkState q m)
      = (replicate (length l) (Returned None), mkState q' m')
    /\ holds q' m' (kept (m_capacity q) (xs ++ l))
    /\ m_capacity q' = m_capacity q
    /\ m_data q' = m_data q.
Proof.
  induction l as [|x l IH]; intros q m xs H Hpos.
  - exists q, m. rewrite app_nil_r.
    rewrite kept_short by (pose proof (holds_bounds _ _ _ H); destruct H as (?&?&?&?&?); lia).
    auto.
  - destruct (push_holds x q m xs H Hpos) as (q1 & m1 & Hrun & Hh & Hc & Hd).
    destruct (IH q1 m1 _ Hh) as (q2 & m2 & Hrun2 & Hh2 & Hc2 & Hd2); [lia|].
    exists q2, m2. cbn [fmap list_fmap run do_call].
    rewrite (bind_Returned _ _ _ _ _ Hrun). unfold ret at 1.
    change (list_fmap T (call T) Push l) with (Push <$> l).
    rewrite Hrun2. cbn [length replicate].
    split; [reflexivity|].
    rewrite Hc, kept_app, <- app_assoc in Hh2.
    split; [exact Hh2|]. split; congruence.
Qed.

Lemma run_pops (n : nat) : forall q m xs,
  holds q m xs ->
  (n <= length xs)%nat ->
  exists q' m',
    run (replicate n Pop) (mkState q m)
      = ((fun x => Returned (Some x)) <$> take n xs, mkState q' m')
    /\ holds q' m' (drop n xs)
    /\ m_capacity q' = m_capacity q
    /\ m_data q' = m_data q.
Proof.
  induction n as [|n IH]; intros q m xs H Hn.
  - exists q, m. auto.
  - destruct xs as [|x xs]; [simpl in Hn; lia|].
    destruct (pop_spec q m x xs H) as (m1 & l & Hrun & Hh & _).
    destruct (IH _ m1 xs Hh) as (q2 & m2 & Hrun2 & Hh2 & Hc2 & Hd2);
      [simpl in Hn; lia|].
    exists q2, m2. cbn [replicate run do_call].
    rewrite (bind_Returned _ _ _ _ _ Hrun). unfold ret at 1.
    rewrite Hrun2. auto.
Qed.

Lemma run_pops_drained (n : nat) st :
  m_filled (this st) = 0 ->
  (run (replicate n (@Pop T)) st).1 = replicate n Blocked.
Proof.
  intros Hz. induction n as [|n IH]; [reflexivity|].
  cbn [replicate run do_call]. unfold bind at 1.
  rewrite pop_empty by exact Hz.
  destruct (run (replicate n Pop) st) as [rs st']. cbn [fst] in *.
  now rewrite IH.
Qed.

(** Well-formedness is kept by every call, and no call on a well-formed
    queue reads a slot that holds no object. *)
Lemma do_call_holds (c : call T) q m xs :
  holds q m xs ->
  1 <= m_capacity q ->
  exists r q' m' ys,
    do_call c (mkState q m) = (r, mkState q' m')
    /\ r <> Fault
    /\ holds q' m' ys
    /\ m_capacity q' = m_capacity q.
Proof.
  intros H Hpos. destruct c as [x| |d]; unfold do_call.
  - destruct (push_holds x q m xs H Hpos) as (q' & m' & Hrun & Hh & Hc & _).
    exists (Returned None), q', m', (kept (m_capacity q) (xs ++ [x])).
    rewrite (bind_Returned _ _ _ _ _ Hrun). repeat split; try assumption.
    discriminate.
  - destruct xs as [|x xs].
    + exists Blocked, q, m, []. unfold bind. rewrite pop_empty.
      * repeat split; try assumption. discriminate.
      * destruct H as (_ & _ & _ & Hfill & _). cbn [this]. simpl in Hfill. lia.
    + destruct (pop_spec q m x xs H) as (m' & l & Hrun & Hh & _).
      eexists (Returned (Some x)), _, m', xs.
      rewrite (bind_Returned _ _ _ _ _ Hrun). repeat split; try assumption.
      discriminate.
  - destruct xs as [|x xs].
    + eexists (Thrown _), q, m, []. unfold bind. rewrite popWithTimeout_empty.
      * repeat split; try assumption. discriminate.
      * destruct H as (_ & _ & _ & Hfill & _). cbn [this]. simpl in Hfill. lia.
    + destruct (pop_spec q m x xs H) as (m' & l & Hrun & Hh & _).
      eexists (Returned (Some x)), _, m', xs.
      rewrite <- popWithTimeout_nonempty with (d := d) in Hrun.
      * rewrite (bind_Returned _ _ _ _ _ Hrun). repeat split; try assumption.
        discriminate.
      * destruct H as (_ & _ & _ & Hfill & _). cbn [this]. simpl in Hfill. lia.
Qed.

Lemma run_holds (cs : list (call T)) : forall q m xs,
  holds q m xs ->
  1 <= m_capacity q ->
  Forall (fun r => r <> Fault) (run cs (mkState q m)).1
  /\ exists ys, holds (this (run cs (mkState q m)).2) (mem (run cs (mkState q m)).2) ys.
Proof.
  induction cs as [|c cs IH]; intros q m xs H Hpos.
  - split; [constructor | now exists xs].
  - destruct (do_call_holds c q m xs H Hpos) as (r & q' & m' & ys & Hrun & Hr & Hh & Hc).
    cbn [run]. rewrite Hrun.
    destruct (IH q' m' ys Hh) as [Hall Hex]; [lia|].
    destruct (run cs (mkState q' m')) as [rs st2]. cbn [fst snd] in *.
    split; [now constructor | exact Hex].
Qed.

End Behaviour.

(** ** What a call can touch, whatever the heap *)

Section Footprint.

Context {T : Type}.
Implicit Types (m : Mem T) (p : loc) (i : Z) (v x : T) (q : Queue) (st : state T).

Lemma quiet_on_refl p st : quiet_on p st st.
Proof. repeat split. Qed.

Lemma quiet_on_trans p st1 st2 st3 :
  quiet_on p st1 st2 -> quiet_on p st2 st3 -> quiet_on p st1 st3.
Proof.
  intros (Ht1 & Hd1 & Hf1) (Ht2 & Hd2 & Hf2). repeat split.
  - congruence.
  - congruence.
  - intros p' Hp'. rewrite Hf2, Hf1 by exact Hp'. reflexivity.
Qed.

Lemma bind_quiet {A B : Type} p (c : M (state T) A) (k : A -> M (state T) B) :
  (forall st, quiet_on p st (c st).2) ->
  (forall a st, quiet_on p st (k a st).2) ->
  forall st, quiet_on p st (bind c k st).2.
Proof.
  intros Hc Hk st. unfold bind.
  specialize (Hc st). destruct (c st) as [[a| | |] st1]; simpl in *; try exact Hc.
  eapply quiet_on_trans; [exact Hc | apply Hk].
Qed.

Lemma for_each_quiet p (l : list Z) (body : Z -> M (state T) unit) :
  (forall i st, quiet_on p st (body i st).2) ->
  forall st, quiet_on p st (for_each l body st).2.
Proof.
  intros Hbody. induction l as [|i l IH]; intros st; simpl.
  - apply quiet_on_refl.
  - apply bind_quiet; [apply Hbody | intros _; apply IH].
Qed.

Lemma poke_quiet p i s st :
  quiet_on p st (mkState (this st) (poke p i s (mem st))).
Proof.
  repeat split; simpl.
  - apply dom_alter_L.
  - intros p' Hp'. apply lookup_alter_ne. congruence.
Qed.

Lemma load_quiet p i st : quiet_on p st (in_mem (load p i) st).2.
Proof.
  unfold in_mem, load, bind, record; simpl.
  destruct (peek p i _); simpl; repeat split.
Qed.

Lemma deref_quiet p (element : ref T) st :
  quiet_on p st (in_mem (deref element) st).2.
Proof.
  destruct element as [v|p' i]; cbn [deref].
  - destruct st. apply quiet_on_refl.
  - unfold in_mem, load, bind, record; simpl.
    destruct (peek p' i _); simpl; repeat split.
Qed.

Lemma assign_quiet p i v st : quiet_on p st (in_mem (assign p i v) st).2.
Proof.
  destruct st as [q m]. unfold in_mem, assign, bind, record. cbn [mem this].
  destruct (store_cases (mkMem (blocks m) (Assign p i :: accesses m)) p i v) as [E|E];
    rewrite E; cbn [snd]; [|repeat split].
  repeat split; cbn [mem blocks poke].
  - apply dom_alter_L.
  - intros p' Hp'. apply lookup_alter_ne. congruence.
Qed.

Lemma destroy_quiet p i st : quiet_on p st (in_mem (destroy p i) st).2.
Proof. destruct st as [q m]. rewrite destroy_eq. apply (poke_quiet p i None (mkState q m)). Qed.

Lemma placement_new_quiet p i v st :
  quiet_on p st (in_mem (placement_new p i v) st).2.
Proof.
  destruct st as [q m]. unfold in_mem, placement_new, bind, record. cbn [mem this].
  destruct (store_cases (mkMem (blocks m) (Construct p i :: accesses m)) p i v) as [E|E];
    rewrite E; cbn [snd]; [|repeat split].
  repeat split; cbn [mem blocks poke].
  - apply dom_alter_L.
  - intros p' Hp'. apply lookup_alter_ne. congruence.
Qed.

Lemma shift_down_quiet q st : quiet_on (m_data q) st (shift_down q st).2.
Proof.
  unfold shift_down, for_range. apply for_each_quiet. intros i st1.
  apply bind_quiet; [apply load_quiet | intros v st2; apply assign_quiet].
Qed.

Lemma quiet_stays st st' : quiet_on (m_data (this st)) st st' -> stays st st'.
Proof.
  intros (Ht & Hd & Hf). unfold stays. rewrite Ht. auto.
Qed.

Lemma stays_refl st : stays st st.
Proof. apply quiet_stays, quiet_on_refl. Qed.

Lemma stays_trans st1 st2 st3 : stays st1 st2 -> stays st2 st3 -> stays st1 st3.
Proof.
  intros (Hp1 & Hc1 & Hb1 & Hd1 & Hf1) (Hp2 & Hc2 & Hb2 & Hd2 & Hf2).
  unfold stays. repeat split; try congruence.
  - apply Hb2, Hb1; assumption.
  - apply Hb2, Hb1; assumption.
  - intros p' Hp'. rewrite Hf2, Hf1 by congruence. reflexivity.
Qed.

Lemma set_m_filled_stays n st st1 :
  quiet_on (m_data (this st)) st st1 ->
  (0 <= m_filled (this st) <= m_capacity (this st) ->
   0 <= n <= m_capacity (this st)) ->
  stays st (set_m_filled n st1).2.
Proof.
  intros (Ht & Hd & Hf) Hn. unfold stays, set_m_filled; simpl.
  rewrite Ht. auto.
Qed.

Lemma push_stays (element : ref T) st : stays st (push element st).2.
Proof.
  destruct st as [q m]. unfold push.
  unfold bind at 1. unfold get_this. cbn [this].
  destruct (Z.ltb_spec (m_filled q) (m_capacity q)) as [Hlt|Hge].
  - unfold bind at 1. unfold bind at 1.
    pose proof (bind_quiet (m_data q) (in_mem (deref element))
                  (fun v => in_mem (placement_new (m_data q) (m_filled q) v))
                  (fun s => deref_quiet _ _ s)
                  (fun v s => placement_new_quiet _ _ v s) (mkState q m)) as Hq.
    destruct ((let* v := in_mem (deref element) in
               in_mem (placement_new (m_data q) (m_filled q) v)) (mkState q m))
      as [[[]| | |] s1]; cbn [snd] in Hq;
      try (now apply (quiet_stays (mkState q m))).
    unfold cv_notify_one, ret. cbn [snd].
    apply (set_m_filled_stays _ (mkState q m)); [exact Hq|].
    cbn [this]. lia.
  - apply (quiet_stays (mkState q m)). cbn [this].
    apply bind_quiet; [|intros; apply quiet_on_refl].
    apply bind_quiet; [apply shift_down_quiet|]. intros _.
    apply bind_quiet; [apply deref_quiet | intros; apply assign_quiet].
Qed.

Lemma pop_stays st : stays st (pop st).2.
Proof.
  destruct st as [q m]. unfold pop.
  unfold bind at 1. unfold cv_wait. cbn [this].
  destruct (Z.eqb_spec (m_filled q) 0) as [Hz|Hnz]; cbn [negb].
  { apply stays_refl. }
  unfold bind at 1. unfold get_this. cbn [this].
  unfold bind at 1.
  pose proof (load_quiet (m_data q) 0 (mkState q m)) as H1.
  destruct (in_mem (load (m_data q) 0) (mkState q m)) as [[popped| | |] st1];
    cbn [snd] in H1; try (now apply (quiet_stays (mkState q m))).
  unfold bind at 1.
  pose proof (shift_down_quiet q st1) as H2.
  destruct (shift_down q st1) as [[[]| | |] st2]; cbn [snd] in H2;
    try (apply (quiet_stays (mkState q m)); eapply quiet_on_trans; eassumption).
  unfold bind at 1.
  pose proof (destroy_quiet (m_data q) (m_filled q) st2) as H3.
  destruct (in_mem (destroy (m_data q) (m_filled q)) st2) as [[[]| | |] st3];
    cbn [snd] in H3;
    try (apply (quiet_stays (mkState q m));
         eapply quiet_on_trans; [eapply quiet_on_trans|]; eassumption).
  rewrite (bind_Returned _ _ _ tt (set_m_filled (m_filled q - 1) st3).2) by reflexivity.
  unfold ret. cbn [snd].
  apply (set_m_filled_stays _ (mkState q m)).
  - eapply quiet_on_trans; [eapply quiet_on_trans|]; eassumption.
  - cbn [this]. lia.
Qed.

Lemma popWithTimeout_stays d st : stays st (popWithTimeout d st).2.
Proof.
  destruct (Z.eq_dec (m_filled (this st)) 0) as [Hz|Hnz].
  - rewrite popWithTimeout_empty by exact Hz. apply stays_refl.
  - rewrite popWithTimeout_nonempty by exact Hnz. apply pop_stays.
Qed.

Lemma bind_ret_state {S A B : Type} (c : M S A) (f : A -> B) s :
  (bind c (fun a => ret (f a)) s).2 = (c s).2.
Proof. unfold bind, ret. now destruct (c s) as [[a| | |] s']. Qed.

Lemma do_call_stays (c : call T) st : stays st (do_call c st).2.
Proof.
  destruct c as [x| |d]; unfold do_call; rewrite bind_ret_state.
  - apply push_stays.
  - apply pop_stays.
  - apply popWithTimeout_stays.
Qed.

Lemma run_stays (cs : list (call T)) : forall st, stays st (run cs st).2.
Proof.
  induction cs as [|c cs IH]; intros st; simpl.
  - apply stays_refl.
  - pose proof (do_call_stays c st) as Hc.
    destruct (do_call c st) as [r st1]. cbn [snd] in Hc.
    specialize (IH st1). destruct (run cs st1) as [rs st2]. cbn [snd] in *.
    eapply stays_trans; eassumption.
Qed.

End Footprint.

(** ** Allocation requests *)

Lemma request_fits (s c : Z) :
  0 < s <= 2 ^ 32 -> 0 <= c <= INT_MAX ->
  size_t_mul (size_t_of_int c) s = c * s /\ c * s <= PTRDIFF_MAX /\ c * s / s = c.
Proof.
  intros Hs Hc. unfold size_t_mul, size_t_of_int, SIZE_MOD, INT_MAX, PTRDIFF_MAX in *.
  assert (Hcs : 0 <= c * s <= (2 ^ 31 - 1) * 2 ^ 32) by nia.
  rewrite (Z.mod_small c) by lia.
  rewrite (Z.mod_small (c * s)) by lia.
  split; [reflexivity|]. split; [lia|].
  apply Z.div_mul. lia.
Qed.

Lemma request_wraps (s c : Z) :
  0 < s <= 2 ^ 32 -> INT_MIN <= c < 0 ->
  PTRDIFF_MAX < size_t_mul (size_t_of_int c) s.
Proof.
  intros Hs Hc. unfold size_t_mul, size_t_of_int, SIZE_MOD, INT_MIN, PTRDIFF_MAX in *.
  rewrite Z.mul_mod_idemp_l by lia.
  assert (Hcs : - (2 ^ 31 * 2 ^ 32) <= c * s <= -1) by nia.
  replace (c * s) with ((c * s + 2 ^ 64) + (-1) * 2 ^ 64) by lia.
  rewrite Z.mod_add by lia.
  rewrite Z.mod_small by lia. lia.
Qed.

Section Constructors.

Context {T : Type}.
Variable sizeof_T : Z.
Hypothesis sizeof_T_range : 0 < sizeof_T <= 2 ^ 32.
Implicit Types (m : Mem T) (p : loc) (q : Queue) (xs : list T).

Lemma operator_new_fresh m (bytes : Z) p m' :
  operator_new (T:=T) sizeof_T bytes m = (Returned p, m') ->
  blocks m !! p = None /\
  m' = mkMem (<[p := replicate (Z.to_nat (bytes / sizeof_T)) None]> (blocks m)) (accesses m).
Proof.
  unfold operator_new. destruct (bytes <=? PTRDIFF_MAX); [|discriminate].
  intros [= <- <-]. split; [|reflexivity].
  apply not_elem_of_dom, is_fresh.
Qed.

Lemma Queue_ctor_accepts (c : Z) m :
  0 <= c <= INT_MAX ->
  exists p,
    blocks m !! p = None /\
    Queue_ctor sizeof_T c m
      = (Returned (mkQueue p 0 c),
         mkMem (<[p := replicate (Z.to_nat c) None]> (blocks m)) (accesses m)).
Proof.
  intros Hc. destruct (request_fits sizeof_T c sizeof_T_range Hc) as (Heq & Hle & Hdiv).
  exists (fresh (dom (blocks m))). split.
  - apply not_elem_of_dom, is_fresh.
  - unfold Queue_ctor, bind, operator_new. rewrite Heq.
    destruct (Z.leb_spec (c * sizeof_T) PTRDIFF_MAX); [|lia].
    rewrite Hdiv. reflexivity.
Qed.

Lemma Queue_ctor_rejects (c : Z) m :
  INT_MIN <= c < 0 ->
  Queue_ctor (T:=T) sizeof_T c m = (Thrown bad_alloc, m).
Proof.
  intros Hc. pose proof (request_wraps sizeof_T c sizeof_T_range Hc) as Hbig.
  unfold Queue_ctor, bind, operator_new.
  destruct (Z.leb_spec (size_t_mul (size_t_of_int c) sizeof_T) PTRDIFF_MAX); [lia|].
  reflexivity.
Qed.

Lemma holds_fresh p (c : Z) m :
  0 <= c ->
  holds (mkQueue p 0 c)
    (mkMem (<[p := replicate (Z.to_nat c) (@None T)]> (blocks m)) (accesses m)) [].
Proof.
  intros Hc. exists (replicate (Z.to_nat c) None). cbn [blocks m_data m_filled m_capacity].
  rewrite lookup_insert_eq, length_replicate. repeat split. lia.
Qed.

(** The copying loop of the copy constructor. *)
Lemma copy_loop (ps p : loc) (bs : slab T) xs (k : nat) : forall (j c : nat) (h : Mem T),
  p <> ps ->
  blocks h !! ps = Some bs ->
  (forall n x, xs !! n = Some x -> bs !! n = Some (Some x)) ->
  blocks h !! p = Some ((Some <$> take j xs) ++ replicate c None) ->
  (j + k <= length xs)%nat ->
  (k <= c)%nat ->
  exists l,
    for_each (seqZ (Z.of_nat j) (Z.of_nat k))
      (fun i => let* v := load ps i in placement_new p i v) h
    = (Returned tt,
       mkMem (<[p := (Some <$> take (j + k) xs) ++ replicate (c - k) None]> (blocks h))
             (l ++ accesses h)).
Proof.
  induction k as [|k IH]; intros j c h Hne Hbs Hsrc Hp Hjk Hkc.
  - exists []. simpl. rewrite Nat.add_0_r, Nat.sub_0_r, insert_id by exact Hp.
    now destruct h.
  - destruct (lookup_lt_is_Some_2 xs j) as [x Hx]; [lia|].
    rewrite seqZ_cons by lia.
    replace (Z.succ (Z.of_nat j)) with (Z.of_nat (S j)) by lia.
    replace (Z.pred (Z.of_nat (S k))) with (Z.of_nat k) by lia.
    cbn [for_each].
    set (h1 := mkMem (blocks h) (Read ps (Z.of_nat j) :: accesses h)).
    assert (Hload : load ps (Z.of_nat j) h = (Returned x, h1)).
    { unfold load, bind, record; simpl.
      erewrite peek_nat by exact Hbs. rewrite (Hsrc _ _ Hx). reflexivity. }
    set (h2 := mkMem (blocks (poke p (Z.of_nat j) (Some x) h1))
                     (Construct p (Z.of_nat j) :: accesses h1)).
    assert (Hbody : (let* v := load ps (Z.of_nat j) in placement_new p (Z.of_nat j) v) h
                    = (Returned tt, h2)).
    { erewrite bind_Returned by exact Hload.
      unfold placement_new, bind, record.
      rewrite (store_in_slab _ p ((Some <$> take j xs) ++ replicate c None) j x);
        [reflexivity | subst h1; exact Hp |].
      rewrite length_app, length_fmap, length_take, length_replicate. lia. }
    rewrite (bind_Returned _ _ _ _ _ Hbody).
    assert (Hlen : length (Some <$> take j xs) = j)
      by (rewrite length_fmap, length_take; lia).
    assert (Hp2 : blocks h2 !! p = Some ((Some <$> take (S j) xs) ++ replicate (c - 1) None)).
    { subst h2 h1. cbn [blocks poke]. rewrite lookup_alter_eq, Hp.
      cbn [fmap option_fmap option_map]. f_equal.
      rewrite set_slot_nat. rewrite <- Hlen at 1.
      rewrite insert_app_r_alt by lia. rewrite Nat.sub_diag.
      destruct c as [|c]; [lia|]. cbn [replicate insert list_insert].
      rewrite (take_S_r _ _ x) by exact Hx.
      rewrite fmap_app, <- app_assoc. simpl. now rewrite Nat.sub_0_r. }
    destruct (IH (S j) (c - 1)%nat h2) as [l Hrun]; try assumption; try lia.
    { subst h2 h1. cbn [blocks poke]. rewrite lookup_alter_ne by congruence. exact Hbs. }
    exists (l ++ [Construct p (Z.of_nat j); Read ps (Z.of_nat j)]).
    rewrite Hrun. f_equal. f_equal.
    + subst h2 h1. cbn [blocks poke]. apply map_eq. intros p'.
      rewrite !lookup_insert, lookup_alter.
      destruct (decide (p = p')); [|reflexivity].
      do 3 f_equal; [f_equal; lia | lia].
    + subst h2 h1. cbn [accesses]. now rewrite <- app_assoc.
Qed.

Lemma Queue_copy_spec src m xs :
  m_capacity src <= INT_MAX ->
  holds src m xs ->
  exists p m',
    Queue_copy sizeof_T src m
      = (Returned (mkQueue p (m_filled src) (m_capacity src)), m')
    /\ blocks m !! p = None
    /\ holds (mkQueue p (m_filled src) (m_capacity src)) m' xs
    /\ holds src m' xs.
Proof.
  intros Hmax Hsrc. pose proof (holds_bounds _ _ _ Hsrc) as Hbd.
  destruct Hsrc as (b & Hb & Hcap & Hfill & Htake).
  destruct (request_fits sizeof_T (m_capacity src) sizeof_T_range) as (Heq & Hle & Hdiv);
    [lia|].
  set (p := fresh (dom (blocks m))).
  assert (Hfresh : blocks m !! p = None) by apply not_elem_of_dom, is_fresh.
  assert (Hne : p <> m_data src) by congruence.
  set (m1 := mkMem (<[p := replicate (length b) None]> (blocks m)) (accesses m)).
  assert (Hnew : operator_new (T:=T) sizeof_T
                   (size_t_mul (size_t_of_int (m_capacity src)) sizeof_T) m
                 = (Returned p, m1)).
  { unfold operator_new. rewrite Heq.
    destruct (Z.leb_spec (m_capacity src * sizeof_T) PTRDIFF_MAX); [|lia].
    rewrite Hdiv, <- Hcap, Nat2Z.id. reflexivity. }
  destruct (copy_loop (m_data src) p b xs (length xs) 0 (length b) m1) as [l Hloop];
    try assumption; try lia.
  { subst m1. cbn [blocks]. rewrite lookup_insert_ne by congruence. exact Hb. }
  { intros n x Hx. eapply (holds_lookup src m); eauto. }
  { subst m1. cbn [blocks]. rewrite lookup_insert_eq. reflexivity. }
  exists p. eexists. split; [|split; [exact Hfresh|split]].
  - unfold Queue_copy. erewrite bind_Returned by exact Hnew.
    unfold for_range. rewrite Z.sub_0_r, <- Hfill.
    erewrite bind_Returned by exact Hloop. reflexivity.
  - exists ((Some <$> xs) ++ replicate (length b - length xs) None).
    cbn [blocks m_data m_filled m_capacity Nat.add]. rewrite lookup_insert_eq.
    rewrite firstn_all. split; [reflexivity|].
    rewrite length_app, length_fmap, length_replicate.
    split; [lia|]. split; [lia|].
    rewrite take_app_length'; [reflexivity | now rewrite length_fmap].
  - exists b. cbn [blocks]. subst m1. cbn [blocks].
    rewrite !lookup_insert_ne by congruence. auto.
Qed.

End Constructors.

(** ** Where exceptions can come from *)

Section Exceptions.

Context {T : Type}.
Implicit Types (m : Mem T) (p : loc) (i : Z) (v x : T) (q : Queue) (st : state T).

Lemma bind_never_throws {S A B : Type} (c : M S A) (k : A -> M S B) :
  never_throws c -> (forall a, never_throws (k a)) -> never_throws (bind c k).
Proof.
  intros Hc Hk s e. unfold bind. specialize (Hc s).
  destruct (c s) as [[a| | |] s1]; simpl in *; try discriminate.
  - apply Hk.
  - now destruct (Hc e0).
Qed.

Lemma for_each_never_throws {S : Type} (l : list Z) (body : Z -> M S unit) :
  (forall i, never_throws (body i)) -> never_throws (for_each l body).
Proof.
  intros Hbody. induction l as [|i l IH]; simpl.
  - intros s e; discriminate.
  - apply bind_never_throws; [apply Hbody | intros _; exact IH].
Qed.

Lemma in_mem_never_throws {A : Type} (c : M (Mem T) A) :
  never_throws c -> never_throws (in_mem c).
Proof.
  intros Hc st e. unfold in_mem. specialize (Hc (mem st) e).
  destruct (c (mem st)) as [r h]. exact Hc.
Qed.

Lemma load_never_throws p i : never_throws (load (T:=T) p i).
Proof.
  intros m e. unfold load, bind, record; simpl. now destruct (peek p i _).
Qed.

Lemma assign_never_throws p i v : never_throws (assign p i v).
Proof.
  intros m e. unfold assign, bind, record.
  destruct (store_cases (mkMem (blocks m) (Assign p i :: accesses m)) p i v) as [E|E];
    rewrite E; discriminate.
Qed.

Lemma deref_never_throws (element : ref T) : never_throws (deref element).
Proof.
  destruct element as [v|p i]; cbn [deref]; [intros m e; discriminate|].
  intros m e. unfold load, bind, record; simpl. now destruct (peek p i _).
Qed.

Lemma destroy_never_throws p i : never_throws (destroy (T:=T) p i).
Proof. intros m e; discriminate. Qed.

Lemma placement_new_never_throws p i v : never_throws (placement_new p i v).
Proof.
  intros m e. unfold placement_new, bind, record.
  destruct (store_cases (mkMem (blocks m) (Construct p i :: accesses m)) p i v) as [E|E];
    rewrite E; discriminate.
Qed.

Lemma shift_down_never_throws q : never_throws (shift_down (T:=T) q).
Proof.
  unfold shift_down, for_range. apply for_each_never_throws. intros i.
  apply bind_never_throws.
  - apply in_mem_never_throws, load_never_throws.
  - intros v. apply in_mem_never_throws, assign_never_throws.
Qed.

Lemma push_never_throws (element : ref T) : never_throws (push element).
Proof.
  unfold push. apply bind_never_throws; [intros st e; discriminate|].
  intros q. apply bind_never_throws; [|intros _ st e; discriminate].
  destruct (m_filled q <? m_capacity q).
  - apply bind_never_throws; [|intros _ st e; discriminate].
    apply bind_never_throws.
    + apply in_mem_never_throws, deref_never_throws.
    + intros v. apply in_mem_never_throws, placement_new_never_throws.
  - apply bind_never_throws; [apply shift_down_never_throws|].
    intros _. apply bind_never_throws.
    + apply in_mem_never_throws, deref_never_throws.
    + intros v. apply in_mem_never_throws, assign_never_throws.
Qed.

Lemma pop_never_throws : never_throws (pop (T:=T)).
Proof.
  unfold pop. apply bind_never_throws.
  { intros st e. unfold cv_wait. now destruct (negb _). }
  intros _. apply bind_never_throws; [intros st e; discriminate|].
  intros q. apply bind_never_throws.
  { apply in_mem_never_throws, load_never_throws. }
  intros popped. apply bind_never_throws; [apply shift_down_never_throws|].
  intros _. apply bind_never_throws.
  { apply in_mem_never_throws, destroy_never_throws. }
  intros _. apply bind_never_throws; intros; intros st e; discriminate.
Qed.

Lemma do_call_throws (c : call T) st e :
  (do_call c st).1 = Thrown e ->
  (exists d, c = PopWithTimeout d)
  /\ m_filled (this st) = 0
  /\ e = system_error operation_would_block "Queue: pop() timeout".
Proof.
  destruct c as [x| |d]; unfold do_call; intros H.
  - exfalso. revert H. apply bind_never_throws; [apply push_never_throws|].
    intros _ s e'; discriminate.
  - exfalso. revert H. apply bind_never_throws; [apply pop_never_throws|].
    intros v s e'; discriminate.
  - destruct (Z.eq_dec (m_filled (this st)) 0) as [Hz|Hnz].
    + unfold bind in H. rewrite popWithTimeout_empty in H by exact Hz.
      simpl in H. injection H as He. rewrite <- He. eauto.
    + exfalso. unfold bind in H. rewrite popWithTimeout_nonempty in H by exact Hnz.
      pose proof (pop_never_throws st) as Hp.
      destruct (pop st) as [[v| | |] s1]; simpl in *; try discriminate.
      now destruct (Hp e0).
Qed.

End Exceptions.

(** * The queue's behaviour *)

(** ** The test cases of test/test.cpp, run on the model *)

Lemma made_is_constructed (n : nat) :
  Z.of_nat n <= INT_MAX ->
  Queue_ctor sizeof_int (Z.of_nat n) fresh_heap
    = (Returned (this (made n)), mem (made n)).
Proof.
  intros Hn.
  destruct (request_fits sizeof_int (Z.of_nat n)) as (Heq & Hle & Hdiv);
    [unfold sizeof_int; lia | lia |].
  unfold Queue_ctor, bind, operator_new. rewrite Heq.
  destruct (Z.leb_spec (Z.of_nat n * sizeof_int) PTRDIFF_MAX); [|lia].
  rewrite Hdiv, Nat2Z.id. reflexivity.
Qed.

(** "Push to Queue: not full" *)
Example test_push_not_full :
  let st := after 3 [Push 1; Push 2; Push 3] in
  count (this st) = size (this st) /\ snapshot (this st) (mem st) = Some [1; 2; 3].
Proof. split; reflexivity. Qed.

(** "Push to Queue: full" *)
Example test_push_full :
  let st1 := after 3 [Push 1; Push 2; Push 3; Push 10] in
  let st2 := after 3 [Push 1; Push 2; Push 3; Push 10; Push 25; Push 33] in
  snapshot (this st1) (mem st1) = Some [2; 3; 10] /\
  snapshot (this st2) (mem st2) = Some [10; 25; 33].
Proof. split; reflexivity. Qed.

(** "Pop from Queue (using pop method): without timeout" *)
Example test_pop :
  let calls := [Push 1; Push 3; Push 2; Push 6; Pop; Pop] in
  let st := after 5 calls in
  drop 4 (run calls (made 5)).1 = [Returned (Some 1); Returned (Some 3)] /\
  count (this st) = 2 /\
  snapshot (this st) (mem st) = Some [2; 6].
Proof. repeat split; reflexivity. Qed.

(** "popWithTimeout throws exception" *)
Example test_popWithTimeout_throws :
  (popWithTimeout 100 (made 2)).1
    = Thrown (system_error operation_would_block "Queue: pop() timeout").
Proof. reflexivity. Qed.

(** The reader of "Write and Read from Queue, concurrently", with the
    writer's pushes placed where its sleeps put them: capacity 2, the
    element 2 is evicted, and the last pop finds the 5. *)
Example test_handoff_order :
  let calls := [Push 1; Pop; Push 2; Push 3; Push 4; Pop; Pop; Push 5; Pop] in
  (run calls (made 2)).1
    = [Returned None; Returned (Some 1); Returned None; Returned None;
       Returned None; Returned (Some 3); Returned (Some 4); Returned None;
       Returned (Some 5)]
  /\ count (this (after 2 calls)) = 0.
Proof. split; reflexivity. Qed.

(** ** Push on a full queue *)

(** With [element] bound to an object [x] outside the slabs, as in every
    push of the tests: on a queue with [count == capacity >= 1], [push]
    returns, leaves the count at the capacity, and leaves in the slab the
    former elements but the oldest, each one slot nearer to index 0,
    followed by [x] in the last slot; every write of the call lands inside
    the slab, the last one in slot [capacity - 1]. *)
Theorem push_on_full_evicts_oldest {T : Type} (x : T) (q : Queue) (m : Mem T)
    (xs : list T) :
  holds q m xs ->
  count q = size q ->
  1 <= size q ->
  exists m' l,
    push (Outside x) (mkState q m) = (Returned tt, mkState q m')
    /\ blocks m' !! data q = Some (Some <$> (drop 1 xs ++ [x]))
    /\ holds q m' (drop 1 xs ++ [x])
    /\ snapshot q m' = Some (drop 1 xs ++ [x])
    /\ accesses m' = Assign (data q) (size q - 1) :: l ++ accesses m
    /\ Forall (fun w => w.1 = data q /\ 0 <= w.2 < size q) (writes l)
    /\ destroys l = [].
Proof.
  intros H Hfull Hpos. unfold count, size, data in *.
  destruct (push_full x q m xs H Hfull Hpos)
    as (m' & l & Hrun & Hh & Hacc & Hd & Hw & _).
  exists m', l. repeat split; try assumption.
  - destruct Hh as (b & Hb & Hcap & Hfill & Htake).
    rewrite Hb. f_equal. rewrite <- Htake. symmetry. apply take_ge. lia.
  - now apply holds_snapshot.
Qed.

Lemma push_on_full_evicts_oldest_witness :
  holds (this after_1_2_3) (mem after_1_2_3) [1; 2; 3]
  /\ count (this after_1_2_3) = size (this after_1_2_3)
  /\ 1 <= size (this after_1_2_3)
  /\ exists m' l,
       push (Outside 10) after_1_2_3 = (Returned tt, mkState (this after_1_2_3) m')
       /\ blocks m' !! data (this after_1_2_3) = Some [Some 2; Some 3; Some 10]
       /\ holds (this after_1_2_3) m' [2; 3; 10]
       /\ snapshot (this after_1_2_3) m' = Some [2; 3; 10]
       /\ accesses m' = Assign 1%positive 2 :: l ++ accesses (mem after_1_2_3)
       /\ Forall (fun w => w.1 = 1%positive /\ 0 <= w.2 < 3) (writes l)
       /\ destroys l = [].
Proof.
  assert (H : holds (this after_1_2_3) (mem after_1_2_3) [1; 2; 3]).
  { exists [Some 1; Some 2; Some 3]. repeat split; reflexivity. }
  assert (Hfull : count (this after_1_2_3) = size (this after_1_2_3)) by reflexivity.
  assert (Hpos : 1 <= size (this after_1_2_3)) by (vm_compute; discriminate).
  split; [exact H|]. split; [exact Hfull|]. split; [exact Hpos|].
  exact (push_on_full_evicts_oldest 10 (this after_1_2_3) (mem after_1_2_3)
           [1; 2; 3] H Hfull Hpos).
Defined.

(** C1. [push] takes its argument by reference and reads it after the
    loop.  On a full queue, with [element] bound to the queue's own slot
    [i], which holds [x] when the call begins and whose right neighbour
    holds [y]: [push] returns and leaves the former elements but the oldest
    followed by [y], the value the loop has moved into slot [i], and not
    by [x]. *)
Theorem push_on_full_stores_the_shifted_argument {T : Type} (i : nat) (x y : T)
    (q : Queue) (m : Mem T) (xs : list T) :
  holds q m xs ->
  count q = size q ->
  xs !! i = Some x ->
  xs !! S i = Some y ->
  (deref (Slot (data q) (Z.of_nat i)) m).1 = Returned x
  /\ exists m',
       push (Slot (data q) (Z.of_nat i)) (mkState q m) = (Returned tt, mkState q m')
       /\ holds q m' (drop 1 xs ++ [y])
       /\ snapshot q m' = Some (drop 1 xs ++ [y])
       /\ (x <> y -> snapshot q m' <> Some (drop 1 xs ++ [x])).
Proof.
  intros H Hfull Hx Hy. unfold count, size, data in *. split.
  - destruct H as (b & Hb & _ & _ & Htake).
    erewrite deref_Slot; [reflexivity | exact Hb |].
    eapply holds_lookup; [exact Hb | exact Htake | exact Hx].
  - destruct (push_full_own_slot i y q m xs H Hfull Hy) as (m' & l & Hrun & Hh & _).
    exists m'. split; [exact Hrun|]. split; [exact Hh|].
    rewrite (holds_snapshot _ _ _ Hh). split; [reflexivity|].
    intros Hne [= Heq]. apply app_inv_head in Heq. congruence.
Qed.

Lemma push_on_full_stores_the_shifted_argument_witness :
  holds (this after_1_2_3) (mem after_1_2_3) [1; 2; 3]
  /\ count (this after_1_2_3) = size (this after_1_2_3)
  /\ [1; 2; 3] !! 0%nat = Some 1
  /\ [1; 2; 3] !! 1%nat = Some 2
  /\ (deref (Slot (data (this after_1_2_3)) 0) (mem after_1_2_3)).1 = Returned 1
  /\ exists m',
       push (Slot (data (this after_1_2_3)) 0) after_1_2_3
         = (Returned tt, mkState (this after_1_2_3) m')
       /\ holds (this after_1_2_3) m' [2; 3; 2]
       /\ snapshot (this after_1_2_3) m' = Some [2; 3; 2]
       /\ (1 <> 2 -> snapshot (this after_1_2_3) m' <> Some [2; 3; 1]).
Proof.
  assert (H : holds (this after_1_2_3) (mem after_1_2_3) [1; 2; 3]).
  { exists [Some 1; Some 2; Some 3]. repeat split; reflexivity. }
  assert (Hfull : count (this after_1_2_3) = size (this after_1_2_3)) by reflexivity.
  assert (Hx : [1; 2; 3] !! 0%nat = Some 1) by reflexivity.
  assert (Hy : [1; 2; 3] !! 1%nat = Some 2) by reflexivity.
  split; [exact H|]. split; [exact Hfull|]. split; [exact Hx|]. split; [exact Hy|].
  exact (push_on_full_stores_the_shifted_argument 0 1 2 (this after_1_2_3)
           (mem after_1_2_3) [1; 2; 3] H Hfull Hx Hy).
Defined.

(** ** Removal *)

(** C2. On a queue holding [x :: xs], [pop] (and [popWithTimeout], whatever
    the bound) returns [x], moves the others one slot nearer to index 0 and
    decrements the count; but the one destructor call of the removal is on
    slot [count] (the count before the decrement), which is no live slot,
    and the vacated slot [count - 1] keeps its object. *)
Theorem pop_destroys_slot_past_live_range {T : Type} (q : Queue) (m : Mem T)
    (x : T) (xs : list T) (d : Z) :
  holds q m (x :: xs) ->
  exists st',
    pop (mkState q m) = (Returned x, st')
    /\ popWithTimeout d (mkState q m) = (Returned x, st')
    /\ count (this st') = count q - 1
    /\ holds (this st') (mem st') xs
    /\ destroys (accesses (mem st')) = (data q, count q) :: destroys (accesses m)
    /\ peek (data q) (count q - 1) (mem st') = last (x :: xs).
Proof.
  intros H. unfold count, data.
  destruct (pop_spec q m x xs H)
    as (m' & l & Hrun & Hh & Hacc & Hd & _ & _ & _ & _ & Hlast).
  eexists. split; [exact Hrun|]. split.
  - rewrite popWithTimeout_nonempty; [exact Hrun|].
    cbn [this]. pose proof (holds_bounds _ _ _ H).
    destruct H as (_ & _ & _ & Hfill & _). simpl in Hfill. lia.
  - cbn [this mem m_filled]. split; [reflexivity|]. split; [exact Hh|].
    split.
    + rewrite Hacc. cbn [destroys]. now rewrite destroys_app, Hd.
    + rewrite Hlast, last_lookup. reflexivity.
Qed.

Lemma pop_destroys_slot_past_live_range_witness :
  holds (this after_7) (mem after_7) [7]
  /\ exists st',
       pop after_7 = (Returned 7, st')
       /\ popWithTimeout 100 after_7 = (Returned 7, st')
       /\ count (this st') = 0
       /\ holds (this st') (mem st') []
       /\ destroys (accesses (mem st')) = [(1%positive, 1)]
       /\ peek 1%positive 0 (mem st') = Some 7.
Proof.
  assert (H : holds (this after_7) (mem after_7) [7]).
  { exists [Some 7]. repeat split; reflexivity. }
  split; [exact H|].
  exact (pop_destroys_slot_past_live_range (this after_7) (mem after_7) 7 [] 100 H).
Defined.

(** C6. With an element in the queue, [popWithTimeout d] is [pop]: the same
    outcome and the same state after it; on a well-formed queue that
    outcome is the oldest element and the state holds the others. *)
Theorem popWithTimeout_same_as_pop {T : Type} (d : Z) (st : state T) :
  0 < count (this st) ->
  0 <= d ->
  popWithTimeout d st = pop st
  /\ forall xs, holds (this st) (mem st) xs ->
       exists x st',
         pop st = (Returned x, st')
         /\ head xs = Some x
         /\ holds (this st') (mem st') (tail xs).
Proof.
  intros Hpos _. unfold count in Hpos. split.
  - apply popWithTimeout_nonempty. lia.
  - intros xs H. destruct st as [q m]. cbn [this mem] in *.
    destruct xs as [|x xs].
    + destruct H as (_ & _ & _ & Hfill & _). simpl in Hfill. lia.
    + destruct (pop_spec q m x xs H) as (m' & l & Hrun & Hh & _).
      eexists x, _. split; [exact Hrun|]. split; [reflexivity | exact Hh].
Qed.

Lemma popWithTimeout_same_as_pop_witness :
  0 < count (this after_1_3_2_6)
  /\ 0 <= 100
  /\ popWithTimeout 100 after_1_3_2_6 = pop after_1_3_2_6
  /\ forall xs, holds (this after_1_3_2_6) (mem after_1_3_2_6) xs ->
       exists x st',
         pop after_1_3_2_6 = (Returned x, st')
         /\ head xs = Some x
         /\ holds (this st') (mem st') (tail xs).
Proof.
  assert (Hpos : 0 < count (this after_1_3_2_6)) by reflexivity.
  assert (Hd : 0 <= 100) by lia.
  split; [exact Hpos|]. split; [exact Hd|].
  exact (popWithTimeout_same_as_pop 100 after_1_3_2_6 Hpos Hd).
Defined.

(** ** Order of removal *)

(** With every [element] bound to an object outside the slabs, as in the
    tests: after the elements [l] are pushed, in order, into a queue of
    capacity at least 1 that holds [xs], [n] calls of [pop] return what the
    pushes kept (the last [capacity] elements of [xs ++ l]), oldest first,
    as long as there is any; an evicted element is returned by none, and a
    pop that finds the queue drained waits. *)
Theorem pops_follow_push_order {T : Type} (xs l : list T) (n : nat) (q : Queue)
    (m : Mem T) :
  holds q m xs ->
  1 <= size q ->
  (run ((Push <$> l) ++ replicate n Pop) (mkState q m)).1
    = replicate (length l) (Returned None)
      ++ ((fun x => Returned (Some x)) <$> take n (kept (size q) (xs ++ l)))
      ++ replicate (n - length (kept (size q) (xs ++ l))) Blocked.
Proof.
  intros H Hpos. unfold size in *.
  destruct (run_pushes l q m xs H Hpos) as (q1 & m1 & Hrun1 & Hh1 & Hc1 & _).
  rewrite run_app, Hrun1. cbn [fst snd]. f_equal.
  set (ys := kept (m_capacity q) (xs ++ l)) in *.
  replace n with (n `min` length ys + (n - length ys))%nat at 1 by lia.
  rewrite replicate_add, run_app.
  destruct (run_pops (n `min` length ys) q1 m1 ys Hh1) as (q2 & m2 & Hrun2 & Hh2 & _);
    [lia|].
  rewrite Hrun2. cbn [fst snd]. f_equal.
  - f_equal. destruct (decide (n <= length ys)%nat).
    + now rewrite Nat.min_l by lia.
    + rewrite Nat.min_r by lia. now rewrite !take_ge by lia.
  - destruct (decide (n <= length ys)%nat) as [Hle|Hgt].
    + replace (n - length ys)%nat with 0%nat by lia. reflexivity.
    + rewrite Nat.min_r in Hh2 by lia. rewrite drop_all in Hh2.
      apply run_pops_drained.
      destruct Hh2 as (_ & _ & _ & Hfill & _). simpl in Hfill. cbn [this]. lia.
Qed.

Lemma pops_follow_push_order_witness :
  holds (this (made 5)) (mem (made 5)) []
  /\ 1 <= size (this (made 5))
  /\ (run ((Push <$> [1; 2; 3]) ++ replicate 3 Pop) (made 5)).1
       = [Returned None; Returned None; Returned None;
          Returned (Some 1); Returned (Some 2); Returned (Some 3)].
Proof.
  assert (H : holds (this (made 5)) (mem (made 5)) []).
  { exists (replicate 5 None). repeat split; reflexivity. }
  assert (Hpos : 1 <= size (this (made 5))) by (vm_compute; discriminate).
  split; [exact H|]. split; [exact Hpos|].
  exact (pops_follow_push_order [] [1; 2; 3] 3 (this (made 5)) (mem (made 5)) H Hpos).
Defined.

(** Eviction: of 1, 2, 3 pushed into a queue of capacity 2, the pops return
    2 and 3, and the third pop waits. *)
Example pops_skip_evicted :
  (run ((Push <$> [1; 2; 3]) ++ replicate 3 Pop) (made 2)).1
    = [Returned None; Returned None; Returned None;
       Returned (Some 2); Returned (Some 3); Blocked].
Proof. reflexivity. Qed.

(** C3. The pops return what the pushes left in the slab, and a push on a
    full queue reads [element] after its loop.  On a full queue, [push]
    with [element] bound to the queue's own slot [i], which holds [x] and
    whose right neighbour holds [y], followed by as many pops as the queue
    has elements: the pops return the former elements but the oldest, in
    order, and then [y]; where [x] and [y] differ that is not the order of
    the pushes, which ends in [x]. *)
Theorem pops_return_the_shifted_argument {T : Type} (i : nat) (x y : T) (q : Queue)
    (m : Mem T) (xs : list T) :
  holds q m xs ->
  count q = size q ->
  xs !! i = Some x ->
  xs !! S i = Some y ->
  (deref (Slot (data q) (Z.of_nat i)) m).1 = Returned x
  /\ exists st',
       push (Slot (data q) (Z.of_nat i)) (mkState q m) = (Returned tt, st')
       /\ (run (replicate (length xs) Pop) st').1
            = (fun v => Returned (Some v)) <$> (drop 1 xs ++ [y])
       /\ (x <> y ->
           (run (replicate (length xs) Pop) st').1
             <> (fun v => Returned (Some v)) <$> (drop 1 xs ++ [x])).
Proof.
  intros H Hfull Hx Hy. unfold count, size, data in *. split.
  - destruct H as (b & Hb & _ & _ & Htake).
    erewrite deref_Slot; [reflexivity | exact Hb |].
    eapply holds_lookup; [exact Hb | exact Htake | exact Hx].
  - destruct (push_full_own_slot i y q m xs H Hfull Hy) as (m' & l & Hrun & Hh & _).
    assert (Hlen : length (drop 1 xs ++ [y]) = length xs).
    { apply lookup_lt_Some in Hy. rewrite length_app, length_drop. simpl. lia. }
    destruct (run_pops (length xs) q m' (drop 1 xs ++ [y]) Hh) as (q' & m2 & Hpops & _);
      [lia|].
    rewrite take_ge in Hpops by lia.
    exists (mkState q m'). split; [exact Hrun|]. rewrite Hpops. cbn [fst].
    split; [reflexivity|].
    intros Hne Heq. rewrite !fmap_app in Heq. apply app_inv_head in Heq.
    injection Heq as Heq. congruence.
Qed.

Lemma pops_return_the_shifted_argument_witness :
  holds (this after_1_2_3) (mem after_1_2_3) [1; 2; 3]
  /\ count (this after_1_2_3) = size (this after_1_2_3)
  /\ [1; 2; 3] !! 0%nat = Some 1
  /\ [1; 2; 3] !! 1%nat = Some 2
  /\ (deref (Slot (data (this after_1_2_3)) 0) (mem after_1_2_3)).1 = Returned 1
  /\ exists st',
       push (Slot (data (this after_1_2_3)) 0) after_1_2_3 = (Returned tt, st')
       /\ (run (replicate 3 Pop) st').1
            = [Returned (Some 2); Returned (Some 3); Returned (Some 2)]
       /\ (1 <> 2 ->
           (run (replicate 3 Pop) st').1
             <> [Returned (Some 2); Returned (Some 3); Returned (Some 1)]).
Proof.
  assert (H : holds (this after_1_2_3) (mem after_1_2_3) [1; 2; 3]).
  { exists [Some 1; Some 2; Some 3]. repeat split; reflexivity. }
  assert (Hfull : count (this after_1_2_3) = size (this after_1_2_3)) by reflexivity.
  assert (Hx : [1; 2; 3] !! 0%nat = Some 1) by reflexivity.
  assert (Hy : [1; 2; 3] !! 1%nat = Some 2) by reflexivity.
  split; [exact H|]. split; [exact Hfull|]. split; [exact Hx|]. split; [exact Hy|].
  exact (pops_return_the_shifted_argument 0 1 2 (this after_1_2_3)
           (mem after_1_2_3) [1; 2; 3] H Hfull Hx Hy).
Defined.

(** ** The timeout *)

(** C4. On an empty queue, with no push during the wait, [popWithTimeout]
    throws [std::system_error] with [operation_would_block], returns no
    element, and leaves the queue and the heap exactly as they were.  No
    other call on a queue throws at all, and this exception is not the
    [std::bad_alloc] of a failed allocation. *)
Theorem timeout_is_the_only_error {T : Type} (d : Z) (st : state T) :
  count (this st) = 0 ->
  popWithTimeout d st
    = (Thrown (system_error operation_would_block "Queue: pop() timeout"), st)
  /\ (forall (c : call T) (st0 : state T) (e : exception),
        (do_call c st0).1 = Thrown e ->
        (exists d0, c = PopWithTimeout d0)
        /\ count (this st0) = 0
        /\ e = system_error operation_would_block "Queue: pop() timeout"
        /\ e <> bad_alloc).
Proof.
  intros Hz. split.
  - now apply popWithTimeout_empty.
  - intros c st0 e He.
    destruct (do_call_throws c st0 e He) as (Hc & Hz0 & ->).
    repeat split; try assumption. discriminate.
Qed.

Lemma timeout_is_the_only_error_witness :
  count (this (made 2)) = 0
  /\ popWithTimeout 100 (made 2)
       = (Thrown (system_error operation_would_block "Queue: pop() timeout"), made 2)
  /\ (forall (c : call Z) (st0 : state Z) (e : exception),
        (do_call c st0).1 = Thrown e ->
        (exists d0, c = PopWithTimeout d0)
        /\ count (this st0) = 0
        /\ e = system_error operation_would_block "Queue: pop() timeout"
        /\ e <> bad_alloc).
Proof.
  assert (Hz : count (this (made 2)) = 0) by reflexivity.
  split; [exact Hz|].
  exact (timeout_is_the_only_error 100 (made 2) Hz).
Defined.

(** ** Construction *)

(** C5, as the spec states it, fails: [Queue<int> queue(0)] is constructed,
    and the object has count 0 and capacity 0. *)
Lemma constructor_accepts_capacity_zero :
  Queue_ctor sizeof_int 0 fresh_heap = (Returned (this (made 0)), mem (made 0))
  /\ size (this (made 0)) = 0
  /\ ~ (exists e, (Queue_ctor sizeof_int 0 fresh_heap).1 = Thrown e).
Proof.
  split; [reflexivity|]. split; [reflexivity|].
  intros [e He]. discriminate.
Qed.

(** C5, amended.  The constructor checks nothing.  A negative capacity is
    stopped by the allocation alone: converted to [size_t], the request is
    for more than [PTRDIFF_MAX] bytes, [operator new] throws and no object
    exists.  Capacity 0 is accepted and gives a queue with count 0 and
    capacity 0.  Every construction runs a constructor that is given a
    capacity or a source queue: there is no other. *)
Theorem constructor_rejects_only_negative {T : Type} (sizeof_T n : Z) (m : Mem T) :
  0 < sizeof_T <= 2 ^ 32 ->
  int_range n ->
  n < 0 ->
  Queue_ctor sizeof_T n m = (Thrown bad_alloc, m)
  /\ (exists q m',
        Queue_ctor sizeof_T 0 m = (Returned q, m')
        /\ count q = 0 /\ size q = 0 /\ holds q m' [])
  /\ (forall c : constructor_call,
        (exists k, construct (T:=T) sizeof_T c = Queue_ctor sizeof_T k)
        \/ (exists src, construct (T:=T) sizeof_T c = Queue_copy sizeof_T src)).
Proof.
  intros Hs Hn Hneg. unfold int_range in Hn. split; [|split].
  - apply Queue_ctor_rejects; [exact Hs | lia].
  - destruct (Queue_ctor_accepts (T:=T) sizeof_T Hs 0 m) as (p & _ & Hrun).
    { unfold INT_MAX. lia. }
    eexists _, _. split; [exact Hrun|].
    repeat split. apply (holds_fresh p 0 m). lia.
  - intros [k|src]; simpl; eauto.
Qed.

Lemma constructor_rejects_only_negative_witness :
  0 < sizeof_int <= 2 ^ 32
  /\ int_range (-1)
  /\ -1 < 0
  /\ Queue_ctor sizeof_int (-1) fresh_heap = (Thrown bad_alloc, fresh_heap)
  /\ (exists q m',
        Queue_ctor sizeof_int 0 fresh_heap = (Returned q, m')
        /\ count q = 0 /\ size q = 0 /\ holds q m' [])
  /\ (forall c : constructor_call,
        (exists k, construct (T:=Z) sizeof_int c = Queue_ctor sizeof_int k)
        \/ (exists src, construct (T:=Z) sizeof_int c = Queue_copy sizeof_int src)).
Proof.
  assert (Hs : 0 < sizeof_int <= 2 ^ 32) by (unfold sizeof_int; lia).
  assert (Hn : int_range (-1)) by (unfold int_range, INT_MIN, INT_MAX; lia).
  assert (Hneg : -1 < 0) by lia.
  split; [exact Hs|]. split; [exact Hn|]. split; [exact Hneg|].
  exact (constructor_rejects_only_negative sizeof_int (-1) fresh_heap Hs Hn Hneg).
Defined.

(** ** The capacity invariant *)

(** C7. A queue constructed with a positive capacity [n] keeps
    [0 <= count <= capacity] and the capacity [n] after every sequence of
    [push], [pop] and [popWithTimeout] calls. *)
Theorem count_stays_within_capacity {T : Type} (sizeof_T n : Z) (m m0 : Mem T)
    (q : Queue) (cs : list (call T)) :
  0 < n ->
  Queue_ctor sizeof_T n m = (Returned q, m0) ->
  0 <= count (this (run cs (mkState q m0)).2) <= size (this (run cs (mkState q m0)).2)
  /\ size (this (run cs (mkState q m0)).2) = n.
Proof.
  intros Hn Hctor.
  assert (Hq : m_filled q = 0 /\ m_capacity q = n).
  { unfold Queue_ctor, bind in Hctor.
    destruct (operator_new sizeof_T _ m) as [[p| | |] m1]; try discriminate.
    unfold ret in Hctor. injection Hctor as <- _. auto. }
  destruct Hq as [Hf Hc].
  destruct (run_stays cs (mkState q m0)) as (_ & Hcap & Hbd & _).
  cbn [this] in Hcap, Hbd.
  unfold count, size. rewrite Hcap. split; [|exact Hc].
  rewrite <- Hcap. apply Hbd. lia.
Qed.

Lemma count_stays_within_capacity_witness :
  0 < 3
  /\ Queue_ctor sizeof_int 3 fresh_heap = (Returned (this (made 3)), mem (made 3))
  /\ 0 <= count (this (after 3 [Push 1; Push 2; Pop; Push 3; Push 4; Push 5;
                                 PopWithTimeout 10; Pop; Pop; Pop]))
       <= size (this (after 3 [Push 1; Push 2; Pop; Push 3; Push 4; Push 5;
                               PopWithTimeout 10; Pop; Pop; Pop]))
  /\ size (this (after 3 [Push 1; Push 2; Pop; Push 3; Push 4; Push 5;
                          PopWithTimeout 10; Pop; Pop; Pop])) = 3.
Proof.
  assert (Hn : 0 < 3) by lia.
  assert (Hc : Queue_ctor sizeof_int 3 fresh_heap = (Returned (this (made 3)), mem (made 3)))
    by reflexivity.
  split; [exact Hn|]. split; [exact Hc|].
  exact (count_stays_within_capacity sizeof_int 3 fresh_heap (mem (made 3))
           (this (made 3))
           [Push 1; Push 2; Pop; Push 3; Push 4; Push 5; PopWithTimeout 10; Pop; Pop; Pop]
           Hn Hc).
Defined.

(** Beyond the count: such a queue stays well formed, its first [count]
    slots are objects after every sequence of calls, and no call reads a
    slot that holds none. *)
Lemma constructed_queue_stays_well_formed {T : Type} (sizeof_T n : Z) (m : Mem T)
    (cs : list (call T)) :
  0 < sizeof_T <= 2 ^ 32 ->
  0 < n <= INT_MAX ->
  exists q m0,
    Queue_ctor sizeof_T n m = (Returned q, m0)
    /\ Forall (fun r => r <> Fault) (run cs (mkState q m0)).1
    /\ exists ys,
         holds (this (run cs (mkState q m0)).2) (mem (run cs (mkState q m0)).2) ys.
Proof.
  intros Hs Hn.
  destruct (Queue_ctor_accepts (T:=T) sizeof_T Hs n m) as (p & _ & Hrun); [lia|].
  eexists _, _. split; [exact Hrun|].
  apply (run_holds cs _ _ []); [apply holds_fresh; lia | simpl; lia].
Qed.

(** ** Copying *)

(** C8. The copy of a well-formed queue holding [xs] is a queue on a slab
    of its own, with the capacity and the count of the source and the same
    elements in the same order; the source is as it was; and whatever is
    then called on the source, the copy still holds [xs]. *)
Theorem copy_is_independent {T : Type} (sizeof_T : Z) (src : Queue) (m : Mem T)
    (xs : list T) :
  0 < sizeof_T <= 2 ^ 32 ->
  size src <= INT_MAX ->
  holds src m xs ->
  exists cpy m',
    Queue_copy sizeof_T src m = (Returned cpy, m')
    /\ size cpy = size src
    /\ count cpy = count src
    /\ data cpy <> data src
    /\ holds cpy m' xs
    /\ holds src m' xs
    /\ forall cs : list (call T),
         holds cpy (mem (run cs (mkState src m')).2) xs
         /\ snapshot cpy (mem (run cs (mkState src m')).2) = Some xs.
Proof.
  intros Hs Hmax H. unfold size, count, data in *.
  destruct (Queue_copy_spec sizeof_T Hs src m xs Hmax H)
    as (p & m' & Hrun & Hfresh & Hcpy & Hsrc).
  assert (Hne : p <> m_data src).
  { destruct H as (b & Hb & _). congruence. }
  eexists _, m'. split; [exact Hrun|]. cbn [m_data m_filled m_capacity].
  repeat split; try assumption.
  - destruct (run_stays cs (mkState src m')) as (_ & _ & _ & _ & Hframe).
    eapply holds_frame; [exact Hcpy|]. apply Hframe. exact Hne.
  - apply holds_snapshot.
    destruct (run_stays cs (mkState src m')) as (_ & _ & _ & _ & Hframe).
    eapply holds_frame; [exact Hcpy|]. apply Hframe. exact Hne.
Qed.

Lemma copy_is_independent_witness :
  0 < sizeof_int <= 2 ^ 32
  /\ size (this after_2_3) <= INT_MAX
  /\ holds (this after_2_3) (mem after_2_3) [2; 3]
  /\ exists cpy m',
       Queue_copy sizeof_int (this after_2_3) (mem after_2_3) = (Returned cpy, m')
       /\ size cpy = size (this after_2_3)
       /\ count cpy = count (this after_2_3)
       /\ data cpy <> data (this after_2_3)
       /\ holds cpy m' [2; 3]
       /\ holds (this after_2_3) m' [2; 3]
       /\ forall cs : list (call Z),
            holds cpy (mem (run cs (mkState (this after_2_3) m')).2) [2; 3]
            /\ snapshot cpy (mem (run cs (mkState (this after_2_3) m')).2) = Some [2; 3].
Proof.
  assert (Hs : 0 < sizeof_int <= 2 ^ 32) by (unfold sizeof_int; lia).
  assert (Hmax : size (this after_2_3) <= INT_MAX) by (vm_compute; discriminate).
  assert (H : holds (this after_2_3) (mem after_2_3) [2; 3]).
  { exists [Some 2; Some 3; None; None; None]. repeat split; reflexivity. }
  split; [exact Hs|]. split; [exact Hmax|]. split; [exact H|].
  exact (copy_is_independent sizeof_int (this after_2_3) (mem after_2_3) [2; 3] Hs Hmax H).
Defined.

(** "Construct Queue (with copy constructor as well.)", with pushes into
    the original after the copy was taken. *)
Example test_copy :
  match Queue_copy sizeof_int (this after_2_3) (mem after_2_3) with
  | (Returned new_queue, m') =>
      let st' := (run [Push 4; Push 5; Push 6; Push 7] (mkState (this after_2_3) m')).2 in
      count (this st') = 5
      /\ snapshot (this st') (mem st') = Some [3; 4; 5; 6; 7]
      /\ count new_queue = 2 /\ size new_queue = 5
      /\ snapshot new_queue (mem st') = Some [2; 3]
  | _ => False
  end.
Proof. repeat split; reflexivity. Qed.

(** ** The accessor *)

(** C9, as the spec states it, fails: after [push(1); push(2); pop()] on a
    queue of capacity 2 the count is 1, and reading index 1 through
    [data()] yields 2. *)
Lemma data_reaches_slots_beyond_count :
  count (this after_1_2_pop) = 1
  /\ (inspect (this after_1_2_pop) 1 (mem after_1_2_pop)).1 = Returned 2
  /\ ~ (forall i, count (this after_1_2_pop) <= i ->
          forall v, (inspect (this after_1_2_pop) i (mem after_1_2_pop)).1 <> Returned v).
Proof.
  split; [reflexivity|]. split; [reflexivity|].
  intros H. apply (H 1 ltac:(vm_compute; discriminate) 2). reflexivity.
Qed.

(** C9, amended.  [data()] is the pointer to the slab itself.  Read at an
    index in [0, count) of a well-formed queue it yields the element at that
    position, oldest first. *)
Theorem data_reads_live_prefix {T : Type} (q : Queue) (m : Mem T) (xs : list T)
    (i : Z) :
  holds q m xs ->
  0 <= i < count q ->
  data q = m_data q
  /\ exists v, xs !! Z.to_nat i = Some v /\ (inspect q i m).1 = Returned v.
Proof.
  intros H Hi. split; [reflexivity|]. unfold count in Hi.
  pose proof H as (b & Hb & Hcap & Hfill & Htake).
  destruct (lookup_lt_is_Some_2 xs (Z.to_nat i)) as [v Hv]; [lia|].
  exists v. split; [exact Hv|].
  unfold inspect, data, load, bind, record; cbn [fst snd].
  replace i with (Z.of_nat (Z.to_nat i)) by lia.
  change (peek (m_data q) (Z.of_nat (Z.to_nat i))
            {| blocks := blocks m;
               accesses := Read (m_data q) (Z.of_nat (Z.to_nat i)) :: accesses m |})
    with (peek (m_data q) (Z.of_nat (Z.to_nat i)) m).
  rewrite (holds_peek q m xs _ v H Hv). reflexivity.
Qed.

Lemma data_reads_live_prefix_witness :
  holds (this after_1_3_2_6) (mem after_1_3_2_6) [1; 3; 2; 6]
  /\ 0 <= 2 < count (this after_1_3_2_6)
  /\ data (this after_1_3_2_6) = m_data (this after_1_3_2_6)
  /\ exists v, [1; 3; 2; 6] !! Z.to_nat 2 = Some v
               /\ (inspect (this after_1_3_2_6) 2 (mem after_1_3_2_6)).1 = Returned v.
Proof.
  assert (H : holds (this after_1_3_2_6) (mem after_1_3_2_6) [1; 3; 2; 6]).
  { exists [Some 1; Some 3; Some 2; Some 6; None]. repeat split; reflexivity. }
  assert (Hi : 0 <= 2 < count (this after_1_3_2_6))
    by (vm_compute; split; [discriminate | reflexivity]).
  split; [exact H|]. split; [exact Hi|].
  exact (data_reads_live_prefix (this after_1_3_2_6) (mem after_1_3_2_6) [1; 3; 2; 6] 2 H Hi).
Defined.

(** ** Push without capacity *)

(** C10.  On the queue that [Queue(0)] constructs, [push] takes the branch
    of the full queue and assigns the element to [m_data + 0 - 1]: the one
    write of the call is at index -1, before the slab, where the queue owns
    no slot, and the call has no defined outcome. *)
Theorem push_without_capacity_writes_before_slab {T : Type} (sizeof_T : Z) (x : T)
    (m m0 : Mem T) (q : Queue) :
  Queue_ctor sizeof_T 0 m = (Returned q, m0) ->
  exists st',
    push (Outside x) (mkState q m0) = (Fault, st')
    /\ size q = 0
    /\ writes (accesses (mem st')) = (data q, -1) :: writes (accesses m0)
    /\ ~ (0 <= -1 < size q).
Proof.
  intros Hctor.
  assert (Hq : m_filled q = 0 /\ m_capacity q = 0).
  { unfold Queue_ctor, bind in Hctor.
    destruct (operator_new sizeof_T _ m) as [[p| | |] m1]; try discriminate.
    unfold ret in Hctor. injection Hctor as <- _. auto. }
  destruct Hq as [Hf Hc].
  eexists. split; [now apply push_no_capacity|].
  unfold size, data. cbn [mem accesses writes]. repeat split; try assumption. lia.
Qed.

Lemma push_without_capacity_writes_before_slab_witness :
  Queue_ctor sizeof_int 0 fresh_heap = (Returned (this (made 0)), mem (made 0))
  /\ exists st',
       push (Outside 7) (made 0) = (Fault, st')
       /\ size (this (made 0)) = 0
       /\ writes (accesses (mem st')) = [(1%positive, -1)]
       /\ ~ (0 <= -1 < size (this (made 0))).
Proof.
  assert (Hc : Queue_ctor sizeof_int 0 fresh_heap = (Returned (this (made 0)), mem (made 0)))
    by reflexivity.
  split; [exact Hc|].
  exact (push_without_capacity_writes_before_slab sizeof_int 7 fresh_heap
           (mem (made 0)) (this (made 0)) Hc).
Defined.

(** * More of the class *)

(** ** What a call records *)

Lemma constructs_app (l1 l2 : list access) :
  constructs (l1 ++ l2) = constructs l1 ++ constructs l2.
Proof.
  induction l1 as [|[] l1 IH]; simpl; auto. now rewrite IH.
Qed.

Lemma for_each_trace {S : Type} (acc : S -> list access) (tr : Z -> list access)
    (l : list Z) (body : Z -> M S unit) :
  (forall i s s', body i s = (Returned tt, s') -> acc s' = tr i ++ acc s) ->
  forall s s',
    for_each l body s = (Returned tt, s') ->
    acc s' = flat_map tr (reverse l) ++ acc s.
Proof.
  intros Hbody. induction l as [|i l IH]; intros s s' H.
  - simpl in H. unfold ret in H. now inversion H.
  - cbn [for_each] in H. unfold bind in H.
    destruct (body i s) as [[[]| | |] s1] eqn:E; try discriminate.
    rewrite reverse_cons, flat_map_app. cbn [flat_map]. rewrite app_nil_r, <- app_assoc.
    rewrite (IH _ _ H). now rewrite (Hbody _ _ _ E).
Qed.

Lemma slots_down_snoc (p : loc) (lo n : Z) :
  0 <= n ->
  slots_down p lo (n + 1) = slots_down p (lo + 1) n ++ [(p, lo)].
Proof.
  intros Hn. unfold slots_down.
  rewrite (seqZ_cons lo (n + 1)) by lia.
  replace (Z.pred (n + 1)) with n by lia.
  replace (Z.succ lo) with (lo + 1) by lia.
  now rewrite fmap_cons, reverse_cons.
Qed.

Lemma slots_down_nil (p : loc) (lo n : Z) : n <= 0 -> slots_down p lo n = [].
Proof. intros Hn. unfold slots_down. now rewrite seqZ_nil. Qed.

Lemma elem_of_slots_down (p p' : loc) (lo n i : Z) :
  (p', i) ∈ slots_down p lo n <-> p' = p /\ lo <= i < lo + n.
Proof.
  unfold slots_down. rewrite elem_of_reverse, list_elem_of_fmap. split.
  - intros (j & [= -> ->] & Hj). apply elem_of_seqZ in Hj. auto.
  - intros [-> Hi]. exists i. split; [reflexivity|]. now apply elem_of_seqZ.
Qed.

Lemma slots_down_NoDup (p : loc) (lo n : Z) : NoDup (slots_down p lo n).
Proof.
  unfold slots_down. rewrite reverse_Permutation.
  apply NoDup_fmap_2; [|apply NoDup_seqZ].
  intros i j [= ->]. reflexivity.
Qed.

Section Traces.

Context {T : Type}.
Implicit Types (m : Mem T) (p : loc) (i : Z) (v x : T) (q : Queue) (st : state T).

Lemma load_returns p i st v st1 :
  in_mem (load p i) st = (Returned v, st1) ->
  st1 = mkState (this st) (mkMem (blocks (mem st)) (Read p i :: accesses (mem st))).
Proof.
  unfold in_mem, load, bind, record; simpl.
  destruct (peek p i _); intros [= _ <-]; reflexivity.
Qed.

Lemma shift_trace_filters p (n : Z) :
  reads (shift_trace p n) = slots_down p 1 (n - 1)
  /\ writes (shift_trace p n) = slots_down p 0 (n - 1)
  /\ destroys (shift_trace p n) = []
  /\ constructs (shift_trace p n) = [].
Proof.
  unfold shift_trace, slots_down.
  rewrite <- (fmap_add_seqZ 1 0). rewrite <- list_fmap_compose, <- !fmap_reverse.
  induction (reverse (seqZ 0 (n - 1))) as [|i l (IHr & IHw & IHd & IHc)];
    [repeat split|].
  cbn [fmap list_fmap flat_map app reads writes destroys constructs compose].
  rewrite IHr, IHw, IHd, IHc. repeat split.
  do 2 f_equal. lia.
Qed.

Lemma shift_down_trace q st st' :
  shift_down q st = (Returned tt, st') ->
  accesses (mem st') = shift_trace (m_data q) (m_filled q) ++ accesses (mem st).
Proof.
  unfold shift_down, for_range, shift_trace.
  apply (for_each_trace (fun s : state T => accesses (mem s))).
  intros i s s' H. unfold bind in H.
  destruct (in_mem (load (m_data q) i) s) as [[v| | |] s1] eqn:E; try discriminate.
  apply load_returns in E. subst s1. apply assign_returns in H.
  subst s'. reflexivity.
Qed.

Lemma pop_trace st x st' :
  pop st = (Returned x, st') ->
  accesses (mem st')
    = Destroy (m_data (this st)) (m_filled (this st))
      :: shift_trace (m_data (this st)) (m_filled (this st))
      ++ Read (m_data (this st)) 0 :: accesses (mem st).
Proof.
  destruct st as [q m]. cbn [this mem]. unfold pop. intros H.
  unfold bind at 1 in H. unfold cv_wait in H. cbn [this] in H.
  destruct (negb (m_filled q =? 0)); [|discriminate].
  unfold bind at 1 in H. unfold get_this in H. cbn [this] in H.
  unfold bind at 1 in H.
  destruct (in_mem (load (m_data q) 0) (mkState q m)) as [[v| | |] s1] eqn:E1;
    try discriminate.
  apply load_returns in E1. cbn [this mem] in E1.
  unfold bind at 1 in H.
  destruct (shift_down q s1) as [[[]| | |] s2] eqn:E2; try discriminate.
  apply shift_down_trace in E2. subst s1. cbn [mem accesses] in E2.
  destruct s2 as [q2 m2]. cbn [mem] in E2.
  unfold bind at 1 in H. rewrite destroy_eq in H.
  unfold bind, set_m_filled, ret in H. cbn [this mem] in H.
  injection H as _ <-. cbn [mem accesses]. now rewrite E2.
Qed.

Lemma push_trace x st st' :
  push (Outside x) st = (Returned tt, st') ->
  accesses (mem st')
    = if m_filled (this st) <? m_capacity (this st)
      then Construct (m_data (this st)) (m_filled (this st)) :: accesses (mem st)
      else Assign (m_data (this st)) (m_filled (this st) - 1)
           :: shift_trace (m_data (this st)) (m_filled (this st))
           ++ accesses (mem st).
Proof.
  destruct st as [q m]. cbn [this mem]. unfold push. intros H.
  unfold bind at 1 in H. unfold get_this in H. cbn [this] in H.
  destruct (m_filled q <? m_capacity q).
  - unfold bind at 1 in H. unfold bind at 1 in H.
    rewrite (bind_Returned _ _ _ _ _ (in_mem_eq _ q m _ _ (deref_Outside x m))) in H.
    destruct (in_mem (placement_new (m_data q) (m_filled q) x) (mkState q m))
      as [[[]| | |] s2] eqn:E2; try discriminate.
    apply placement_new_returns in E2. subst s2.
    unfold bind, set_m_filled, cv_notify_one, ret in H. cbn [this mem] in H.
    injection H as <-. reflexivity.
  - unfold bind at 1 in H. unfold bind at 1 in H.
    destruct (shift_down q (mkState q m)) as [[[]| | |] s2] eqn:E2; try discriminate.
    apply shift_down_trace in E2. destruct s2 as [q2 m2]. cbn [mem] in E2.
    rewrite (bind_Returned _ _ _ _ _ (in_mem_eq _ q2 m2 _ _ (deref_Outside x m2))) in H.
    destruct (in_mem (assign (m_data q) (m_filled q - 1) x) (mkState q2 m2))
      as [[[]| | |] s3] eqn:E3; try discriminate.
    apply assign_returns in E3. subst s3.
    unfold cv_notify_one, ret in H.
    injection H as <-. cbn [mem accesses]. now rewrite E2.
Qed.

(** The loop of the destructor. *)
Lemma destroy_loop q p (l : list Z) : forall m,
  exists m',
    for_each l (fun i => in_mem (destroy p i)) (mkState q m)
      = (Returned tt, mkState q m')
    /\ delete p (blocks m') = delete p (blocks m)
    /\ dom (blocks m') = dom (blocks m)
    /\ accesses m' = (Destroy p <$> reverse l) ++ accesses m.
Proof.
  induction l as [|i l IH]; intros m.
  - exists m. repeat split.
  - destruct (IH (mkMem (blocks (poke p i None m)) (Destroy p i :: accesses m)))
      as (m' & Hrun & Hdel & Hdom & Hacc).
    exists m'. cbn [for_each].
    rewrite (bind_Returned _ _ _ _ _ (destroy_eq q m p i)).
    split; [exact Hrun|]. cbn [blocks accesses] in *.
    split; [|split].
    + rewrite Hdel. unfold poke; cbn [blocks]. apply delete_alter_eq.
    + rewrite Hdom. apply poke_dom.
    + rewrite Hacc, reverse_cons, fmap_app, <- app_assoc. reflexivity.
Qed.

Lemma destroys_Destroy p (l : list Z) :
  destroys (Destroy p <$> l) = (fun i => (p, i)) <$> l
  /\ reads (Destroy p <$> l) = []
  /\ writes (Destroy p <$> l) = []
  /\ constructs (Destroy p <$> l) = [].
Proof.
  induction l as [|i l (IHd & IHr & IHw & IHc)]; [repeat split|].
  cbn. rewrite IHd. auto.
Qed.

Lemma Queue_dtor_spec q m :
  exists m',
    Queue_dtor (mkState q m) = (Returned tt, mkState q m')
    /\ blocks m' = delete (m_data q) (blocks m)
    /\ accesses m' = (Destroy (m_data q) <$> reverse (seqZ 0 (m_filled q))) ++ accesses m.
Proof.
  destruct (destroy_loop q (m_data q) (seqZ 0 (m_filled q)) m)
    as (m1 & Hrun & Hdel & _ & Hacc).
  exists (mkMem (delete (m_data q) (blocks m1)) (accesses m1)).
  split; [|split; [exact Hdel | exact Hacc]].
  unfold Queue_dtor. unfold bind at 1. unfold get_this. cbn [this].
  unfold for_range. rewrite Z.sub_0_r.
  rewrite (bind_Returned _ _ _ _ _ Hrun). reflexivity.
Qed.

End Traces.

(** ** Push with room *)

(** X1. On a well-formed queue with [count < capacity], [push] with
    [element] bound to an object that holds [x] (an object outside the
    slabs, or a live slot of a queue, this one included) returns, puts [x]
    behind the elements already there and raises the count by one; past the
    read of [element] (none for an object outside the slabs), its one
    access to memory is the construction of [x] in slot [count]: nothing is
    moved or destroyed. *)
Theorem push_with_room_appends {T : Type} (element : ref T) (x : T) (q : Queue)
    (m mr : Mem T) (xs : list T) :
  holds q m xs ->
  count q < size q ->
  deref element m = (Returned x, mr) ->
  exists st',
    push element (mkState q m) = (Returned tt, st')
    /\ count (this st') = count q + 1
    /\ size (this st') = size q
    /\ data (this st') = data q
    /\ holds (this st') (mem st') (xs ++ [x])
    /\ snapshot (this st') (mem st') = Some (xs ++ [x])
    /\ accesses (mem st') = Construct (data q) (count q) :: accesses mr.
Proof.
  intros H Hlt Hde. unfold count, size, data in *.
  destruct (push_room_ref element x mr q m xs H Hlt Hde) as (m' & Hrun & Hh & Hacc & _).
  eexists. split; [exact Hrun|]. cbn [this mem m_filled m_capacity m_data].
  repeat split; try assumption. now apply holds_snapshot.
Qed.

Lemma push_with_room_appends_witness :
  holds (this after_1_2) (mem after_1_2) [1; 2]
  /\ count (this after_1_2) < size (this after_1_2)
  /\ deref (Outside 3) (mem after_1_2) = (Returned 3, mem after_1_2)
  /\ exists st',
       push (Outside 3) after_1_2 = (Returned tt, st')
       /\ count (this st') = 2 + 1
       /\ size (this st') = 3
       /\ data (this st') = 1%positive
       /\ holds (this st') (mem st') [1; 2; 3]
       /\ snapshot (this st') (mem st') = Some [1; 2; 3]
       /\ accesses (mem st') = Construct 1%positive 2 :: accesses (mem after_1_2).
Proof.
  assert (H : holds (this after_1_2) (mem after_1_2) [1; 2]).
  { exists [Some 1; Some 2; None]. repeat split; reflexivity. }
  assert (Hlt : count (this after_1_2) < size (this after_1_2)) by reflexivity.
  assert (Hde : deref (Outside 3) (mem after_1_2) = (Returned 3, mem after_1_2))
    by reflexivity.
  split; [exact H|]. split; [exact Hlt|]. split; [exact Hde|].
  exact (push_with_room_appends (Outside 3) 3 (this after_1_2) (mem after_1_2)
           (mem after_1_2) [1; 2] H Hlt Hde).
Defined.

(** ** Sequences of pushes, sequences of pops *)

(** X2. Pushing [l], in order, each [element] bound to an object outside
    the slabs, into a well-formed queue of capacity at least 1 that holds
    [xs]: every push returns, and the queue then holds the last [capacity]
    elements of [xs ++ l], its count being the smaller of the capacity and
    [count + length l]. *)
Theorem pushes_keep_the_latest {T : Type} (l xs : list T) (q : Queue) (m : Mem T) :
  holds q m xs ->
  1 <= size q ->
  (run (Push <$> l) (mkState q m)).1 = replicate (length l) (Returned None)
  /\ holds (this (run (Push <$> l) (mkState q m)).2)
           (mem (run (Push <$> l) (mkState q m)).2)
           (kept (size q) (xs ++ l))
  /\ snapshot (this (run (Push <$> l) (mkState q m)).2)
              (mem (run (Push <$> l) (mkState q m)).2)
       = Some (kept (size q) (xs ++ l))
  /\ count (this (run (Push <$> l) (mkState q m)).2)
       = Z.min (size q) (count q + Z.of_nat (length l))
  /\ size (this (run (Push <$> l) (mkState q m)).2) = size q.
Proof.
  intros H Hpos. unfold size, count in *.
  destruct (run_pushes l q m xs H Hpos) as (q' & m' & Hrun & Hh & Hc & _).
  rewrite Hrun. cbn [fst snd this mem].
  split; [reflexivity|]. split; [exact Hh|]. split; [now apply holds_snapshot|].
  split; [|exact Hc].
  destruct Hh as (_ & _ & _ & Hfill & _). destruct H as (_ & _ & _ & Hfill0 & _).
  rewrite <- Hfill, <- Hfill0. unfold kept.
  rewrite length_drop, length_app. lia.
Qed.

Lemma pushes_keep_the_latest_witness :
  holds (this after_1_2) (mem after_1_2) [1; 2]
  /\ 1 <= size (this after_1_2)
  /\ (run (Push <$> [3; 4; 5]) after_1_2).1
       = [Returned None; Returned None; Returned None]
  /\ holds (this (run (Push <$> [3; 4; 5]) after_1_2).2)
           (mem (run (Push <$> [3; 4; 5]) after_1_2).2) [3; 4; 5]
  /\ snapshot (this (run (Push <$> [3; 4; 5]) after_1_2).2)
              (mem (run (Push <$> [3; 4; 5]) after_1_2).2) = Some [3; 4; 5]
  /\ count (this (run (Push <$> [3; 4; 5]) after_1_2).2) = 3
  /\ size (this (run (Push <$> [3; 4; 5]) after_1_2).2) = 3.
Proof.
  assert (H : holds (this after_1_2) (mem after_1_2) [1; 2]).
  { exists [Some 1; Some 2; None]. repeat split; reflexivity. }
  assert (Hpos : 1 <= size (this after_1_2)) by (vm_compute; discriminate).
  split; [exact H|]. split; [exact Hpos|].
  exact (pushes_keep_the_latest [3; 4; 5] [1; 2] (this after_1_2) (mem after_1_2) H Hpos).
Defined.

(** X3. [n] pops on a well-formed queue that holds at least [n] elements
    return its [n] oldest elements, oldest first, and leave the others in
    their order, the count lowered by [n] and the capacity as it was. *)
Theorem pops_take_the_oldest {T : Type} (n : nat) (xs : list T) (q : Queue)
    (m : Mem T) :
  holds q m xs ->
  (n <= length xs)%nat ->
  (run (replicate n Pop) (mkState q m)).1
    = (fun x => Returned (Some x)) <$> take n xs
  /\ holds (this (run (replicate n Pop) (mkState q m)).2)
           (mem (run (replicate n Pop) (mkState q m)).2) (drop n xs)
  /\ count (this (run (replicate n Pop) (mkState q m)).2) = count q - Z.of_nat n
  /\ size (this (run (replicate n Pop) (mkState q m)).2) = size q.
Proof.
  intros H Hn. unfold size, count.
  destruct (run_pops n q m xs H Hn) as (q' & m' & Hrun & Hh & Hc & _).
  rewrite Hrun. cbn [fst snd this mem].
  split; [reflexivity|]. split; [exact Hh|]. split; [|exact Hc].
  destruct Hh as (_ & _ & _ & Hfill & _). destruct H as (_ & _ & _ & Hfill0 & _).
  rewrite <- Hfill, <- Hfill0, length_drop. lia.
Qed.

Lemma pops_take_the_oldest_witness :
  holds (this after_1_3_2_6) (mem after_1_3_2_6) [1; 3; 2; 6]
  /\ (2 <= length [1; 3; 2; 6])%nat
  /\ (run (replicate 2 Pop) after_1_3_2_6).1 = [Returned (Some 1); Returned (Some 3)]
  /\ holds (this (run (replicate 2 Pop) after_1_3_2_6).2)
           (mem (run (replicate 2 Pop) after_1_3_2_6).2) [2; 6]
  /\ count (this (run (replicate 2 Pop) after_1_3_2_6).2) = 4 - 2
  /\ size (this (run (replicate 2 Pop) after_1_3_2_6).2) = 5.
Proof.
  assert (H : holds (this after_1_3_2_6) (mem after_1_3_2_6) [1; 3; 2; 6]).
  { exists [Some 1; Some 3; Some 2; Some 6; None]. repeat split; reflexivity. }
  assert (Hn : (2 <= length [1; 3; 2; 6])%nat) by (simpl; lia).
  split; [exact H|]. split; [exact Hn|].
  exact (pops_take_the_oldest 2 [1; 3; 2; 6] (this after_1_3_2_6) (mem after_1_3_2_6) H Hn).
Defined.

(** ** What pop reads and writes *)

(** X4. A pop on a well-formed queue with [count] elements reads each of
    the slots [0 .. count-1] once and no other slot, and assigns to each of
    the slots [0 .. count-2] once and to no other: its reads stay inside
    the live range, and it moves [count - 1] elements. *)
Theorem pop_reads_only_live_slots {T : Type} (q : Queue) (m : Mem T) (x : T)
    (xs : list T) :
  holds q m (x :: xs) ->
  exists st' l,
    pop (mkState q m) = (Returned x, st')
    /\ accesses (mem st') = l ++ accesses m
    /\ reads l = slots_down (data q) 0 (count q)
    /\ writes l = slots_down (data q) 0 (count q - 1)
    /\ constructs l = []
    /\ Z.of_nat (length (writes l)) = count q - 1.
Proof.
  intros H. unfold count, data.
  destruct (pop_spec q m x xs H) as (m' & l0 & Hrun & _).
  pose proof (pop_trace _ _ _ Hrun) as Htr. cbn [this mem] in Htr.
  destruct (shift_trace_filters (m_data q) (m_filled q)) as (Hr & Hw & Hd & Hc).
  assert (Hpos : 1 <= m_filled q).
  { destruct H as (_ & _ & _ & Hfill & _). simpl in Hfill. lia. }
  eexists _, (Destroy (m_data q) (m_filled q)
              :: shift_trace (m_data q) (m_filled q) ++ [Read (m_data q) 0]).
  split; [exact Hrun|]. cbn [mem].
  split; [rewrite Htr; cbn [app]; now rewrite <- app_assoc|].
  cbn [reads writes constructs].
  rewrite reads_app, writes_app, constructs_app, Hr, Hw, Hc. cbn.
  rewrite app_nil_r.
  split; [|split; [reflexivity|split; [reflexivity|]]].
  - replace (m_filled q) with ((m_filled q - 1) + 1) at 2 by lia.
    rewrite slots_down_snoc by lia. reflexivity.
  - unfold slots_down. rewrite length_reverse, length_fmap, length_seqZ. lia.
Qed.

Lemma pop_reads_only_live_slots_witness :
  holds (this after_1_2_3) (mem after_1_2_3) [1; 2; 3]
  /\ exists st' l,
       pop after_1_2_3 = (Returned 1, st')
       /\ accesses (mem st') = l ++ accesses (mem after_1_2_3)
       /\ reads l = [(1%positive, 2); (1%positive, 1); (1%positive, 0)]
       /\ writes l = [(1%positive, 1); (1%positive, 0)]
       /\ constructs l = []
       /\ Z.of_nat (length (writes l)) = 3 - 1.
Proof.
  assert (H : holds (this after_1_2_3) (mem after_1_2_3) [1; 2; 3]).
  { exists [Some 1; Some 2; Some 3]. repeat split; reflexivity. }
  split; [exact H|].
  exact (pop_reads_only_live_slots (this after_1_2_3) (mem after_1_2_3) 1 [2; 3] H).
Defined.

(** ** Destruction *)

(** X5. The destructor of a well-formed queue returns; it runs the element
    destructor once on each of the slots [0 .. count-1], every one of which
    holds an object, and on no other slot; it reads and writes nothing;
    afterwards the slab of the queue is gone from the heap and every other
    slab is as it was. *)
Theorem destructor_destroys_live_slots_and_frees {T : Type} (q : Queue) (m : Mem T)
    (xs : list T) :
  holds q m xs ->
  exists m' l,
    Queue_dtor (mkState q m) = (Returned tt, mkState q m')
    /\ accesses m' = l ++ accesses m
    /\ destroys l = slots_down (data q) 0 (count q)
    /\ NoDup (destroys l)
    /\ (forall p i, (p, i) ∈ destroys l -> exists v, peek p i m = Some v)
    /\ reads l = [] /\ writes l = []
    /\ blocks m' !! data q = None
    /\ (forall p', p' <> data q -> blocks m' !! p' = blocks m !! p').
Proof.
  intros H. unfold data, count.
  destruct (Queue_dtor_spec q m) as (m' & Hrun & Hbl & Hacc).
  destruct (destroys_Destroy (m_data q) (reverse (seqZ 0 (m_filled q))))
    as (Hd & Hr & Hw & _).
  exists m', (Destroy (m_data q) <$> reverse (seqZ 0 (m_filled q))).
  split; [exact Hrun|]. split; [exact Hacc|].
  rewrite Hd, Hr, Hw, fmap_reverse. fold (slots_down (m_data q) 0 (m_filled q)).
  split; [reflexivity|]. split; [|split; [|split; [|split; [|split]]]]; try reflexivity.
  - apply slots_down_NoDup.
  - intros p i Hi. apply elem_of_slots_down in Hi as [-> Hi].
    pose proof H as (_ & _ & _ & Hfill & _).
    destruct (lookup_lt_is_Some_2 xs (Z.to_nat i)) as [v Hv]; [lia|].
    exists v. replace i with (Z.of_nat (Z.to_nat i)) by lia.
    eapply holds_peek; eassumption.
  - rewrite Hbl. apply lookup_delete_eq.
  - intros p' Hp'. rewrite Hbl. apply lookup_delete_ne. congruence.
Qed.

Lemma destructor_destroys_live_slots_and_frees_witness :
  holds (this after_1_2) (mem after_1_2) [1; 2]
  /\ exists m' l,
       Queue_dtor after_1_2 = (Returned tt, mkState (this after_1_2) m')
       /\ accesses m' = l ++ accesses (mem after_1_2)
       /\ destroys l = [(1%positive, 1); (1%positive, 0)]
       /\ NoDup (destroys l)
       /\ (forall p i, (p, i) ∈ destroys l -> exists v, peek p i (mem after_1_2) = Some v)
       /\ reads l = [] /\ writes l = []
       /\ blocks m' !! 1%positive = None
       /\ (forall p', p' <> 1%positive ->
             blocks m' !! p' = blocks (mem after_1_2) !! p').
Proof.
  assert (H : holds (this after_1_2) (mem after_1_2) [1; 2]).
  { exists [Some 1; Some 2; None]. repeat split; reflexivity. }
  split; [exact H|].
  exact (destructor_destroys_live_slots_and_frees (this after_1_2) (mem after_1_2) [1; 2] H).
Defined.

(** X6. A pop followed by the destruction of the queue: between them the
    element destructor runs on slot [count] (the count before the pop) and
    on the slots [0 .. count-2], and never on slot [count - 1], which holds
    an object when the slab is given back. *)
Theorem popped_queue_leaves_an_object_undestroyed {T : Type} (q : Queue) (m : Mem T)
    (x : T) (xs : list T) :
  holds q m (x :: xs) ->
  exists st1 st2 l y,
    pop (mkState q m) = (Returned x, st1)
    /\ Queue_dtor st1 = (Returned tt, st2)
    /\ accesses (mem st2) = l ++ accesses m
    /\ destroys l = slots_down (data q) 0 (count q - 1) ++ [(data q, count q)]
    /\ peek (data q) (count q - 1) (mem st1) = Some y
    /\ ((data q, count q - 1) ∉ destroys l)
    /\ blocks (mem st2) !! data q = None.
Proof.
  intros H. unfold data, count.
  destruct (pop_spec q m x xs H)
    as (m1 & l0 & Hrun & Hh & Hacc & Hd0 & _ & _ & _ & _ & Hlast).
  set (q1 := mkQueue (m_data q) (m_filled q - 1) (m_capacity q)) in *.
  destruct (Queue_dtor_spec q1 m1) as (m2 & Hrun2 & Hbl & Hacc2).
  destruct (destroys_Destroy (m_data q1) (reverse (seqZ 0 (m_filled q1))))
    as (Hd & _).
  destruct (lookup_lt_is_Some_2 (x :: xs) (length xs)) as [y Hy]; [simpl; lia|].
  exists (mkState q1 m1), (mkState q1 m2),
    ((Destroy (m_data q1) <$> reverse (seqZ 0 (m_filled q1)))
     ++ Destroy (m_data q) (m_filled q) :: l0 ++ [Read (m_data q) 0]), y.
  assert (Hdl : destroys ((Destroy (m_data q1) <$> reverse (seqZ 0 (m_filled q1)))
                          ++ Destroy (m_data q) (m_filled q) :: l0 ++ [Read (m_data q) 0])
                = slots_down (m_data q) 0 (m_filled q - 1) ++ [(m_data q, m_filled q)]).
  { rewrite destroys_app, Hd, fmap_reverse. cbn [destroys].
    rewrite destroys_app, Hd0. reflexivity. }
  split; [exact Hrun|]. split; [exact Hrun2|]. cbn [mem].
  split; [|split; [exact Hdl|split; [|split]]].
  - rewrite Hacc2, Hacc. rewrite <- !app_assoc. cbn [app].
    now rewrite <- app_assoc.
  - rewrite Hlast. exact Hy.
  - rewrite Hdl. intros Hin. apply elem_of_app in Hin as [Hin|Hin].
    + apply elem_of_slots_down in Hin as [_ Hin]. lia.
    + apply list_elem_of_singleton in Hin. injection Hin as Hin. lia.
  - rewrite Hbl. apply lookup_delete_eq.
Qed.

Lemma popped_queue_leaves_an_object_undestroyed_witness :
  holds (this after_1_2) (mem after_1_2) [1; 2]
  /\ exists st1 st2 l y,
       pop after_1_2 = (Returned 1, st1)
       /\ Queue_dtor st1 = (Returned tt, st2)
       /\ accesses (mem st2) = l ++ accesses (mem after_1_2)
       /\ destroys l = [(1%positive, 0); (1%positive, 2)]
       /\ peek 1%positive 1 (mem st1) = Some y
       /\ ((1%positive, 1) ∉ destroys l)
       /\ blocks (mem st2) !! 1%positive = None.
Proof.
  assert (H : holds (this after_1_2) (mem after_1_2) [1; 2]).
  { exists [Some 1; Some 2; None]. repeat split; reflexivity. }
  split; [exact H|].
  exact (popped_queue_leaves_an_object_undestroyed (this after_1_2) (mem after_1_2) 1 [2] H).
Defined.

Section PushLog.

Context {T : Type}.

Lemma run_pushes_constructs (l : list T) : forall (q : Queue) (m : Mem T) (xs : list T),
  holds q m xs ->
  1 <= m_capacity q ->
  exists L,
    accesses (mem (run (Push <$> l) (mkState q m)).2) = L ++ accesses m
    /\ constructs L
       = slots_down (m_data q) (m_filled q)
           (Z.min (m_capacity q) (m_filled q + Z.of_nat (length l)) - m_filled q)
    /\ destroys L = [].
Proof.
  induction l as [|x l IH]; intros q m xs H Hpos.
  - exists []. cbn. rewrite slots_down_nil; [auto|].
    pose proof (holds_bounds _ _ _ H). lia.
  - pose proof (holds_bounds _ _ _ H) as Hbd.
    destruct (push_holds x q m xs H Hpos) as (q1 & m1 & Hrun & Hh & Hc & Hd).
    pose proof (push_trace _ _ _ Hrun) as Htr. cbn [this mem] in Htr.
    assert (Hf1 : m_filled q1 = Z.min (m_capacity q) (m_filled q + 1)).
    { destruct Hh as (_ & _ & _ & Hfill & _). destruct H as (_ & _ & _ & Hfill0 & _).
      rewrite <- Hfill, <- Hfill0. unfold kept.
      rewrite length_drop, length_app. simpl. lia. }
    destruct (IH q1 m1 _ Hh) as (L2 & Hacc2 & Hc2 & Hd2); [lia|].
    cbn [fmap list_fmap run do_call].
    rewrite (bind_Returned _ _ _ _ _ Hrun). unfold ret at 1.
    change (list_fmap T (call T) Push l) with (Push <$> l).
    destruct (run (Push <$> l) (mkState q1 m1)) as [rs st2] eqn:E.
    cbn [snd] in *. rewrite Hc, Hd in Hc2.
    destruct (Z.ltb_spec (m_filled q) (m_capacity q)) as [Hlt|Hge].
    + exists (L2 ++ [Construct (m_data q) (m_filled q)]).
      rewrite Hacc2, Htr, <- app_assoc. split; [reflexivity|].
      rewrite constructs_app, destroys_app, Hc2, Hd2. cbn. split; [|reflexivity].
      rewrite Hf1.
      replace (Z.min (m_capacity q) (m_filled q + Z.of_nat (S (length l))) - m_filled q)
        with ((Z.min (m_capacity q)
                 (Z.min (m_capacity q) (m_filled q + 1) + Z.of_nat (length l))
               - Z.min (m_capacity q) (m_filled q + 1)) + 1) by lia.
      rewrite slots_down_snoc by lia.
      replace (Z.min (m_capacity q) (m_filled q + 1)) with (m_filled q + 1) by lia.
      reflexivity.
    + destruct (shift_trace_filters (m_data q) (m_filled q)) as (_ & _ & Hsd & Hsc).
      exists (L2 ++ Assign (m_data q) (m_filled q - 1)
                 :: shift_trace (m_data q) (m_filled q)).
      rewrite Hacc2, Htr, <- app_assoc. split; [reflexivity|].
      rewrite constructs_app, destroys_app, Hc2, Hd2. cbn [constructs destroys].
      rewrite Hsd, Hsc, app_nil_r. split; [|reflexivity].
      rewrite !slots_down_nil by lia. reflexivity.
Qed.

End PushLog.

(** X7. A queue that is constructed, pushed into any number of times and
    destroyed, with no pop in between: the slots in which an object was
    constructed are the slots [0 .. k-1], [k] being the smaller of the
    capacity and the number of pushes, and the element destructor runs on
    exactly these slots, once on each. *)
Theorem pushed_queue_destroys_what_it_constructed {T : Type} (l : list T) (q : Queue)
    (m : Mem T) :
  holds q m [] ->
  1 <= size q ->
  exists st2 L,
    Queue_dtor (run (Push <$> l) (mkState q m)).2 = (Returned tt, st2)
    /\ accesses (mem st2) = L ++ accesses m
    /\ constructs L = slots_down (data q) 0 (Z.min (size q) (Z.of_nat (length l)))
    /\ destroys L = constructs L
    /\ NoDup (destroys L)
    /\ blocks (mem st2) !! data q = None.
Proof.
  intros H Hpos. unfold size, data in *.
  destruct (run_pushes l q m [] H Hpos) as (q1 & m1 & Hrun & Hh & Hc & Hd).
  destruct (run_pushes_constructs l q m [] H Hpos) as (L1 & Hacc1 & Hc1 & Hd1).
  rewrite Hrun in *. cbn [snd mem] in *.
  assert (Hf0 : m_filled q = 0).
  { destruct H as (_ & _ & _ & Hfill & _). simpl in Hfill. lia. }
  assert (Hf1 : m_filled q1 = Z.min (m_capacity q) (Z.of_nat (length l))).
  { destruct Hh as (_ & _ & _ & Hfill & _).
    rewrite <- Hfill. unfold kept. rewrite length_drop. simpl. lia. }
  destruct (Queue_dtor_spec q1 m1) as (m2 & Hrun2 & Hbl & Hacc2).
  destruct (destroys_Destroy (m_data q1) (reverse (seqZ 0 (m_filled q1))))
    as (Hdd & _ & _ & Hdc).
  exists (mkState q1 m2), ((Destroy (m_data q1) <$> reverse (seqZ 0 (m_filled q1))) ++ L1).
  split; [exact Hrun2|]. cbn [mem].
  assert (HcL : constructs ((Destroy (m_data q1) <$> reverse (seqZ 0 (m_filled q1))) ++ L1)
                = slots_down (m_data q) 0 (Z.min (m_capacity q) (Z.of_nat (length l)))).
  { rewrite constructs_app, Hdc, Hc1, Hf0. cbn [app]. f_equal. lia. }
  assert (HdL : destroys ((Destroy (m_data q1) <$> reverse (seqZ 0 (m_filled q1))) ++ L1)
                = slots_down (m_data q) 0 (Z.min (m_capacity q) (Z.of_nat (length l)))).
  { rewrite destroys_app, Hdd, Hd1, app_nil_r, fmap_reverse, Hd, Hf1. reflexivity. }
  split; [rewrite Hacc2, Hacc1; now rewrite app_assoc|].
  split; [exact HcL|]. split; [now rewrite HdL, HcL|]. split.
  - rewrite HdL. apply slots_down_NoDup.
  - rewrite Hbl, Hd. apply lookup_delete_eq.
Qed.

Lemma pushed_queue_destroys_what_it_constructed_witness :
  holds (this (made 2)) (mem (made 2)) []
  /\ 1 <= size (this (made 2))
  /\ exists st2 L,
       Queue_dtor (run (Push <$> [1; 2; 3]) (made 2)).2 = (Returned tt, st2)
       /\ accesses (mem st2) = L ++ accesses (mem (made 2))
       /\ constructs L = [(1%positive, 1); (1%positive, 0)]
       /\ destroys L = constructs L
       /\ NoDup (destroys L)
       /\ blocks (mem st2) !! 1%positive = None.
Proof.
  assert (H : holds (this (made 2)) (mem (made 2)) []).
  { exists [None; None]. repeat split; reflexivity. }
  assert (Hpos : 1 <= size (this (made 2))) by (vm_compute; discriminate).
  split; [exact H|]. split; [exact Hpos|].
  exact (pushed_queue_destroys_what_it_constructed [1; 2; 3] (this (made 2))
           (mem (made 2)) H Hpos).
Defined.

(** ** More on construction and copying *)

Section CopySlab.

Context {T : Type}.
Variable sizeof_T : Z.
Hypothesis sizeof_T_range : 0 < sizeof_T <= 2 ^ 32.

Lemma copy_body_trace (ps p : loc) (i : Z) (s s' : Mem T) :
  (let* v := load ps i in placement_new p i v) s = (Returned tt, s') ->
  accesses s' = [Construct p i; Read ps i] ++ accesses s.
Proof.
  unfold bind at 1. unfold load, bind, record; cbn [fst snd].
  destruct (peek ps i _) as [v|]; [|discriminate].
  unfold placement_new, bind, record.
  match goal with |- context [store p i v ?h] =>
    destruct (store_cases h p i v) as [E|E]; rewrite E end;
    [intros [= <-]; reflexivity | discriminate].
Qed.

Lemma copy_trace_filters (ps p : loc) (l : list Z) :
  reads (flat_map (fun i => [Construct p i; Read ps i]) l) = (fun i => (ps, i)) <$> l
  /\ writes (flat_map (fun i => [Construct p i; Read ps i]) l) = (fun i => (p, i)) <$> l
  /\ constructs (flat_map (fun i => [Construct p i; Read ps i]) l) = (fun i => (p, i)) <$> l
  /\ destroys (flat_map (fun i => [Construct p i; Read ps i]) l) = [].
Proof.
  induction l as [|i l (IHr & IHw & IHc & IHd)]; [repeat split|].
  cbn. rewrite IHr, IHw, IHc, IHd. auto.
Qed.

Lemma Queue_copy_slab (src : Queue) (m : Mem T) (xs : list T) :
  m_capacity src <= INT_MAX ->
  holds src m xs ->
  exists p b,
    Queue_copy sizeof_T src m
      = (Returned (mkQueue p (m_filled src) (m_capacity src)),
         mkMem (<[p := (Some <$> xs) ++ replicate (length b - length xs) None]> (blocks m))
               (flat_map (fun i => [Construct p i; Read (m_data src) i])
                         (reverse (seqZ 0 (m_filled src)))
                ++ accesses m))
    /\ blocks m !! p = None
    /\ blocks m !! m_data src = Some b.
Proof.
  intros Hmax Hsrc. pose proof (holds_bounds _ _ _ Hsrc) as Hbd.
  destruct Hsrc as (b & Hb & Hcap & Hfill & Htake).
  destruct (request_fits sizeof_T (m_capacity src) sizeof_T_range) as (Heq & Hle & Hdiv);
    [lia|].
  set (p := fresh (dom (blocks m))).
  assert (Hfresh : blocks m !! p = None) by apply not_elem_of_dom, is_fresh.
  assert (Hne : p <> m_data src) by congruence.
  set (m1 := mkMem (<[p := replicate (length b) None]> (blocks m)) (accesses m)).
  assert (Hnew : operator_new (T:=T) sizeof_T
                   (size_t_mul (size_t_of_int (m_capacity src)) sizeof_T) m
                 = (Returned p, m1)).
  { unfold operator_new. rewrite Heq.
    destruct (Z.leb_spec (m_capacity src * sizeof_T) PTRDIFF_MAX); [|lia].
    rewrite Hdiv, <- Hcap, Nat2Z.id. reflexivity. }
  destruct (copy_loop (m_data src) p b xs (length xs) 0 (length b) m1) as [l Hloop];
    try assumption; try lia.
  { subst m1. cbn [blocks]. rewrite lookup_insert_ne by congruence. exact Hb. }
  { intros n x Hx. eapply (holds_lookup src m); eauto. }
  { subst m1. cbn [blocks]. rewrite lookup_insert_eq. reflexivity. }
  pose proof (for_each_trace (@accesses T)
                (fun i => [Construct p i; Read (m_data src) i]) _ _
                (copy_body_trace (m_data src) p) _ _ Hloop) as Htr.
  cbn [accesses] in Htr. apply app_inv_tail in Htr.
  exists p, b. split; [|split; [exact Hfresh | exact Hb]].
  unfold Queue_copy. erewrite bind_Returned by exact Hnew.
  unfold for_range. rewrite Z.sub_0_r, <- Hfill.
  erewrite bind_Returned by exact Hloop. unfold ret.
  subst m1. cbn [blocks accesses Nat.add]. rewrite insert_insert_eq, firstn_all.
  rewrite Htr. reflexivity.
Qed.

End CopySlab.

(** X8. The copy constructor, on a well-formed source: it reads each of
    the source's slots [0 .. count-1] once and no other, constructs an
    object in each of the slots [0 .. count-1] of the new slab and in no
    other, destroys and assigns nothing, and leaves the source's slab as it
    was; every slot of the copy at an index [>= count] holds no object,
    whatever the source has beyond its count. *)
Theorem copy_takes_only_the_live_slots {T : Type} (sizeof_T : Z) (src : Queue)
    (m : Mem T) (xs : list T) :
  0 < sizeof_T <= 2 ^ 32 ->
  size src <= INT_MAX ->
  holds src m xs ->
  exists cpy m' l,
    Queue_copy sizeof_T src m = (Returned cpy, m')
    /\ accesses m' = l ++ accesses m
    /\ reads l = slots_down (data src) 0 (count src)
    /\ constructs l = slots_down (data cpy) 0 (count src)
    /\ writes l = constructs l
    /\ destroys l = []
    /\ blocks m' !! data src = blocks m !! data src
    /\ (forall i, count cpy <= i -> peek (data cpy) i m' = None).
Proof.
  intros Hs Hmax H. unfold size, count, data in *.
  destruct (Queue_copy_slab sizeof_T Hs src m xs Hmax H) as (p & b & Hrun & Hfresh & Hb).
  destruct (copy_trace_filters (m_data src) p (reverse (seqZ 0 (m_filled src))))
    as (Hr & Hw & Hc & Hd).
  eexists _, _, _. split; [exact Hrun|]. cbn [m_data m_filled blocks accesses].
  split; [reflexivity|].
  rewrite Hr, Hw, Hc, Hd, !fmap_reverse. repeat split.
  - rewrite lookup_insert_ne; [reflexivity | congruence].
  - intros i Hi. unfold peek. cbn [blocks]. rewrite lookup_insert_eq.
    unfold slot_at. destruct (Z.leb_spec 0 i); [|reflexivity].
    destruct H as (_ & _ & _ & Hfill & _).
    rewrite lookup_app_r by (rewrite length_fmap; lia).
    destruct (replicate _ _ !! _) as [s|] eqn:E; [|reflexivity].
    apply lookup_replicate in E as [-> _]. reflexivity.
Qed.

Lemma copy_takes_only_the_live_slots_witness :
  0 < sizeof_int <= 2 ^ 32
  /\ size (this after_1_2_pop) <= INT_MAX
  /\ holds (this after_1_2_pop) (mem after_1_2_pop) [2]
  /\ peek (data (this after_1_2_pop)) 1 (mem after_1_2_pop) = Some 2
  /\ exists cpy m' l,
       Queue_copy sizeof_int (this after_1_2_pop) (mem after_1_2_pop) = (Returned cpy, m')
       /\ accesses m' = l ++ accesses (mem after_1_2_pop)
       /\ reads l = [(1%positive, 0)]
       /\ constructs l = slots_down (data cpy) 0 1
       /\ writes l = constructs l
       /\ destroys l = []
       /\ blocks m' !! 1%positive = blocks (mem after_1_2_pop) !! 1%positive
       /\ (forall i, count cpy <= i -> peek (data cpy) i m' = None).
Proof.
  assert (Hs : 0 < sizeof_int <= 2 ^ 32) by (unfold sizeof_int; lia).
  assert (Hmax : size (this after_1_2_pop) <= INT_MAX) by (vm_compute; discriminate).
  assert (H : holds (this after_1_2_pop) (mem after_1_2_pop) [2]).
  { exists [Some 2; Some 2]. repeat split; reflexivity. }
  split; [exact Hs|]. split; [exact Hmax|]. split; [exact H|]. split; [reflexivity|].
  exact (copy_takes_only_the_live_slots sizeof_int (this after_1_2_pop)
           (mem after_1_2_pop) [2] Hs Hmax H).
Defined.

(** X9. A copy outlives its source.  For a well-formed source with a
    capacity of at least 1: after any calls on the source, none of which
    reads or stores where the source has no slot, and then the destruction
    of the source, the source's slab is gone and the copy still holds the
    elements it was made with. *)
Theorem copy_survives_its_source {T : Type} (sizeof_T : Z) (src : Queue) (m : Mem T)
    (xs : list T) (cs : list (call T)) :
  0 < sizeof_T <= 2 ^ 32 ->
  1 <= size src <= INT_MAX ->
  holds src m xs ->
  exists cpy m' st2,
    Queue_copy sizeof_T src m = (Returned cpy, m')
    /\ Forall (fun r => r <> Fault) (run cs (mkState src m')).1
    /\ Queue_dtor (run cs (mkState src m')).2 = (Returned tt, st2)
    /\ blocks (mem st2) !! data src = None
    /\ holds cpy (mem st2) xs
    /\ snapshot cpy (mem st2) = Some xs.
Proof.
  intros Hs [Hpos Hmax] H. unfold size, data in *.
  destruct (Queue_copy_spec sizeof_T Hs src m xs Hmax H)
    as (p & m' & Hrun & Hfresh & Hcpy & Hsrc).
  assert (Hne : p <> m_data src).
  { destruct H as (b & Hb & _). congruence. }
  destruct (run_holds cs src m' xs Hsrc Hpos) as (Hall & _).
  destruct (run_stays cs (mkState src m')) as (Hd & _ & _ & _ & Hframe).
  cbn [this mem] in Hd, Hframe.
  destruct (run cs (mkState src m')).2 as [q1 m1] eqn:E. cbn [this mem] in *.
  destruct (Queue_dtor_spec q1 m1) as (m2 & Hrun2 & Hbl & _).
  assert (Hh : holds (mkQueue p (m_filled src) (m_capacity src)) m2 xs).
  { eapply holds_frame; [exact Hcpy|]. cbn [m_data].
    rewrite Hbl, lookup_delete_ne by congruence. now apply Hframe. }
  eexists _, m', _. split; [exact Hrun|]. split; [exact Hall|].
  rewrite E. split; [exact Hrun2|]. cbn [mem].
  split; [|split; [exact Hh | now apply holds_snapshot]].
  rewrite Hbl, Hd. apply lookup_delete_eq.
Qed.

Lemma copy_survives_its_source_witness :
  0 < sizeof_int <= 2 ^ 32
  /\ 1 <= size (this after_2_3) <= INT_MAX
  /\ holds (this after_2_3) (mem after_2_3) [2; 3]
  /\ exists cpy m' st2,
       Queue_copy sizeof_int (this after_2_3) (mem after_2_3) = (Returned cpy, m')
       /\ Forall (fun r => r <> Fault)
            (run [Push 4; Pop; Push 5] (mkState (this after_2_3) m')).1
       /\ Queue_dtor (run [Push 4; Pop; Push 5] (mkState (this after_2_3) m')).2
            = (Returned tt, st2)
       /\ blocks (mem st2) !! data (this after_2_3) = None
       /\ holds cpy (mem st2) [2; 3]
       /\ snapshot cpy (mem st2) = Some [2; 3].
Proof.
  assert (Hs : 0 < sizeof_int <= 2 ^ 32) by (unfold sizeof_int; lia).
  assert (Hmax : 1 <= size (this after_2_3) <= INT_MAX)
    by (vm_compute; split; discriminate).
  assert (H : holds (this after_2_3) (mem after_2_3) [2; 3]).
  { exists [Some 2; Some 3; None; None; None]. repeat split; reflexivity. }
  split; [exact Hs|]. split; [exact Hmax|]. split; [exact H|].
  exact (copy_survives_its_source sizeof_int (this after_2_3) (mem after_2_3) [2; 3]
           [Push 4; Pop; Push 5] Hs Hmax H).
Defined.

(** X10. [Queue(n)] with [0 <= n <= INT_MAX] allocates without
    constructing: it returns a queue with count 0 and capacity [n] on a
    slab that was not in the heap before, of exactly [n] slots none of
    which holds an object; it touches no other slab and accesses no slot. *)
Theorem constructor_allocates_raw_slab {T : Type} (sizeof_T n : Z) (m : Mem T) :
  0 < sizeof_T <= 2 ^ 32 ->
  0 <= n <= INT_MAX ->
  exists q m',
    Queue_ctor sizeof_T n m = (Returned q, m')
    /\ count q = 0
    /\ size q = n
    /\ blocks m !! data q = None
    /\ blocks m' !! data q = Some (replicate (Z.to_nat n) None)
    /\ (forall i, peek (data q) i m' = None)
    /\ (forall p', p' <> data q -> blocks m' !! p' = blocks m !! p')
    /\ accesses m' = accesses m.
Proof.
  intros Hs Hn. unfold count, size, data.
  destruct (Queue_ctor_accepts (T:=T) sizeof_T Hs n m Hn) as (p & Hfresh & Hrun).
  eexists _, _. split; [exact Hrun|]. cbn [m_data m_filled m_capacity blocks accesses].
  repeat split; try assumption.
  - apply lookup_insert_eq.
  - intros i. unfold peek. cbn [blocks]. rewrite lookup_insert_eq.
    unfold slot_at. destruct (0 <=? i); [|reflexivity].
    destruct (replicate _ _ !! _) as [s|] eqn:E; [|reflexivity].
    apply lookup_replicate in E as [-> _]. reflexivity.
  - intros p' Hp'. apply lookup_insert_ne. congruence.
Qed.

Lemma constructor_allocates_raw_slab_witness :
  0 < sizeof_int <= 2 ^ 32
  /\ 0 <= 5 <= INT_MAX
  /\ exists q m',
       Queue_ctor sizeof_int 5 fresh_heap = (Returned q, m')
       /\ count q = 0
       /\ size q = 5
       /\ blocks fresh_heap !! data q = None
       /\ blocks m' !! data q = Some [None; None; None; None; None]
       /\ (forall i, peek (data q) i m' = None)
       /\ (forall p', p' <> data q -> blocks m' !! p' = blocks fresh_heap !! p')
       /\ accesses m' = accesses fresh_heap.
Proof.
  assert (Hs : 0 < sizeof_int <= 2 ^ 32) by (unfold sizeof_int; lia).
  assert (Hn : 0 <= 5 <= INT_MAX) by (unfold INT_MAX; lia).
  split; [exact Hs|]. split; [exact Hn|].
  exact (constructor_allocates_raw_slab sizeof_int 5 fresh_heap Hs Hn).
Defined.

(** ** Every state a constructed queue reaches *)

(** X11. A queue constructed with a capacity [n], [0 < n <= INT_MAX], is
    well formed after every sequence of calls: its first [count] slots hold
    objects, which the reading loop of the tests collects, and no call of
    the sequence reads a slot that holds no object. *)
Theorem constructed_queue_never_reads_raw_memory {T : Type} (sizeof_T n : Z)
    (m m0 : Mem T) (q : Queue) (cs : list (call T)) :
  0 < sizeof_T <= 2 ^ 32 ->
  0 < n <= INT_MAX ->
  Queue_ctor sizeof_T n m = (Returned q, m0) ->
  Forall (fun r => r <> Fault) (run cs (mkState q m0)).1
  /\ exists ys,
       holds (this (run cs (mkState q m0)).2) (mem (run cs (mkState q m0)).2) ys
       /\ snapshot (this (run cs (mkState q m0)).2) (mem (run cs (mkState q m0)).2)
            = Some ys.
Proof.
  intros Hs Hn Hctor.
  destruct (Queue_ctor_accepts (T:=T) sizeof_T Hs n m) as (p & _ & Hrun); [lia|].
  rewrite Hrun in Hctor. injection Hctor as <- <-.
  destruct (run_holds cs (mkQueue p 0 n)
              (mkMem (<[p := replicate (Z.to_nat n) None]> (blocks m)) (accesses m)) [])
    as (Hall & ys & Hys); [apply holds_fresh; lia | simpl; lia |].
  split; [exact Hall|]. exists ys. split; [exact Hys | now apply holds_snapshot].
Qed.

Lemma constructed_queue_never_reads_raw_memory_witness :
  0 < sizeof_int <= 2 ^ 32
  /\ 0 < 2 <= INT_MAX
  /\ Queue_ctor sizeof_int 2 fresh_heap = (Returned (this (made 2)), mem (made 2))
  /\ Forall (fun r => r <> Fault)
       (run [Push 1; Pop; Push 2; Push 3; Push 4; Pop; Pop; Push 5; Pop]
            (mkState (this (made 2)) (mem (made 2)))).1
  /\ exists ys,
       holds (this (run [Push 1; Pop; Push 2; Push 3; Push 4; Pop; Pop; Push 5; Pop]
                        (mkState (this (made 2)) (mem (made 2)))).2)
             (mem (run [Push 1; Pop; Push 2; Push 3; Push 4; Pop; Pop; Push 5; Pop]
                       (mkState (this (made 2)) (mem (made 2)))).2) ys
       /\ snapshot (this (run [Push 1; Pop; Push 2; Push 3; Push 4; Pop; Pop; Push 5; Pop]
                           (mkState (this (made 2)) (mem (made 2)))).2)
                   (mem (run [Push 1; Pop; Push 2; Push 3; Push 4; Pop; Pop; Push 5; Pop]
                          (mkState (this (made 2)) (mem (made 2)))).2)
            = Some ys.
Proof.
  assert (Hs : 0 < sizeof_int <= 2 ^ 32) by (unfold sizeof_int; lia).
  assert (Hn : 0 < 2 <= INT_MAX) by (unfold INT_MAX; lia).
  assert (Hc : Queue_ctor sizeof_int 2 fresh_heap = (Returned (this (made 2)), mem (made 2)))
    by reflexivity.
  split; [exact Hs|]. split; [exact Hn|]. split; [exact Hc|].
  exact (constructed_queue_never_reads_raw_memory sizeof_int 2 fresh_heap (mem (made 2))
           (this (made 2))
           [Push 1; Pop; Push 2; Push 3; Push 4; Pop; Pop; Push 5; Pop] Hs Hn Hc).
Defined.

(** X12. No call of [push], [pop] or [popWithTimeout] allocates or gives
    back memory or moves the queue.  On a well-formed queue with a capacity
    of at least 1, after any sequence of calls with arguments outside the
    slabs: no call has read or stored where the queue has no slot,
    [data()] and [size()] answer as before, the heap has the same slabs,
    and every slab but the queue's own has the same contents. *)
Theorem calls_keep_the_heap_shape {T : Type} (cs : list (call T)) (st : state T)
    (xs : list T) :
  holds (this st) (mem st) xs ->
  1 <= size (this st) ->
  Forall (fun r => r <> Fault) (run cs st).1
  /\ data (this (run cs st).2) = data (this st)
  /\ size (this (run cs st).2) = size (this st)
  /\ dom (blocks (mem (run cs st).2)) = dom (blocks (mem st))
  /\ (forall p', p' <> data (this st) ->
        blocks (mem (run cs st).2) !! p' = blocks (mem st) !! p').
Proof.
  intros H Hpos.
  destruct (run_stays cs st) as (Hd & Hc & _ & Hdom & Hframe).
  destruct st as [q m]. cbn [this mem] in H, Hpos.
  destruct (run_holds cs q m xs H Hpos) as (Hall & _).
  unfold data, size. auto.
Qed.

Lemma calls_keep_the_heap_shape_witness :
  holds (this after_1_2) (mem after_1_2) [1; 2]
  /\ 1 <= size (this after_1_2)
  /\ Forall (fun r => r <> Fault)
       (run [Push 3; Push 4; Pop; PopWithTimeout 10] after_1_2).1
  /\ data (this (run [Push 3; Push 4; Pop; PopWithTimeout 10] after_1_2).2)
       = data (this after_1_2)
  /\ size (this (run [Push 3; Push 4; Pop; PopWithTimeout 10] after_1_2).2)
       = size (this after_1_2)
  /\ dom (blocks (mem (run [Push 3; Push 4; Pop; PopWithTimeout 10] after_1_2).2))
       = dom (blocks (mem after_1_2))
  /\ (forall p', p' <> data (this after_1_2) ->
        blocks (mem (run [Push 3; Push 4; Pop; PopWithTimeout 10] after_1_2).2) !! p'
        = blocks (mem after_1_2) !! p').
Proof.
  assert (H : holds (this after_1_2) (mem after_1_2) [1; 2]).
  { exists [Some 1; Some 2; None]. repeat split; reflexivity. }
  assert (Hpos : 1 <= size (this after_1_2)) by (vm_compute; discriminate).
  split; [exact H|]. split; [exact Hpos|].
  exact (calls_keep_the_heap_shape [Push 3; Push 4; Pop; PopWithTimeout 10] after_1_2
           [1; 2] H Hpos).
Defined.

(** ** The reader *)

Section Reader.

Context {T : Type}.

Lemma pop_into_elements (r : reader T) (x : T) (xs : list T) :
  holds (this (queue r)) (mem (queue r)) (x :: xs) ->
  exists st',
    (let* v := on_queue pop in push_back v) r
      = (Returned tt, mkReader st' (elements r ++ [x]))
    /\ holds (this st') (mem st') xs.
Proof.
  intros H. destruct r as [[q m] els]. cbn [queue this mem elements] in *.
  destruct (pop_spec q m x xs H) as (m' & l & Hrun & Hh & _).
  exists (mkState (mkQueue (m_data q) (m_filled q - 1) (m_capacity q)) m').
  split; [|exact Hh].
  unfold bind, on_queue. cbn [queue]. rewrite Hrun. reflexivity.
Qed.

Lemma pop_into_elements_empty (r : reader T) :
  holds (this (queue r)) (mem (queue r)) [] ->
  (let* v := on_queue pop in push_back v) r = (Blocked, r).
Proof.
  intros H. destruct r as [[q m] els]. cbn [queue this mem elements] in *.
  unfold bind, on_queue. cbn [queue]. rewrite pop_empty; [reflexivity|].
  destruct H as (_ & _ & _ & Hfill & _). simpl in Hfill. cbn [this]. lia.
Qed.

Lemma bind_Blocked {S A B : Type} (c : M S A) (k : A -> M S B) s s' :
  c s = (Blocked, s') -> bind c k s = (Blocked, s').
Proof. intros H. unfold bind. now rewrite H. Qed.

End Reader.

(** X14. [read], run on a well-formed queue with nobody else pushing: with
    four elements or more in the queue it returns, having appended the four
    oldest to [elements] in their order and left the others; with fewer it
    appends all there are, in their order, leaves the queue empty and waits
    in the next [pop]. *)
Theorem read_takes_four_or_waits {T : Type} (r : reader T) (xs : list T) :
  holds (this (queue r)) (mem (queue r)) xs ->
  exists r',
    read r = (if decide (4 <= length xs)%nat then Returned tt else Blocked, r')
    /\ elements r' = elements r ++ take 4 xs
    /\ holds (this (queue r')) (mem (queue r')) (drop 4 xs).
Proof.
  intros H. unfold read.
  destruct xs as [|x1 xs].
  { exists r. rewrite (bind_Blocked _ _ _ _ (pop_into_elements_empty r H)).
    cbn. rewrite app_nil_r. auto. }
  destruct (pop_into_elements r x1 xs H) as (st1 & E1 & H1).
  rewrite (bind_Returned _ _ _ _ _ E1).
  rewrite (bind_Returned (sleep_for 2) _ _ tt _ eq_refl).
  set (r1 := mkReader st1 (elements r ++ [x1])) in *.
  destruct xs as [|x2 xs].
  { exists r1. rewrite (bind_Blocked _ _ _ _ (pop_into_elements_empty r1 H1)). auto. }
  destruct (pop_into_elements r1 x2 xs H1) as (st2 & E2 & H2).
  rewrite (bind_Returned _ _ _ _ _ E2).
  set (r2 := mkReader st2 (elements r1 ++ [x2])) in *.
  destruct xs as [|x3 xs].
  { exists r2. rewrite (bind_Blocked _ _ _ _ (pop_into_elements_empty r2 H2)).
    subst r2 r1. cbn. rewrite <- app_assoc. auto. }
  destruct (pop_into_elements r2 x3 xs H2) as (st3 & E3 & H3).
  rewrite (bind_Returned _ _ _ _ _ E3).
  set (r3 := mkReader st3 (elements r2 ++ [x3])) in *.
  destruct xs as [|x4 xs].
  { exists r3. rewrite (pop_into_elements_empty r3 H3).
    subst r3 r2 r1. cbn. rewrite <- !app_assoc. auto. }
  destruct (pop_into_elements r3 x4 xs H3) as (st4 & E4 & H4).
  rewrite E4. eexists. split; [reflexivity|].
  subst r3 r2 r1. cbn. rewrite <- !app_assoc. auto.
Qed.

Lemma read_takes_four_or_waits_witness :
  holds (this (queue reader_5)) (mem (queue reader_5)) [1; 2; 3; 4; 5]
  /\ exists r',
       read reader_5 = (Returned tt, r')
       /\ elements r' = [1; 2; 3; 4]
       /\ holds (this (queue r')) (mem (queue r')) [5].
Proof.
  assert (H : holds (this (queue reader_5)) (mem (queue reader_5)) [1; 2; 3; 4; 5]).
  { exists [Some 1; Some 2; Some 3; Some 4; Some 5]. repeat split; reflexivity. }
  split; [exact H|].
  exact (read_takes_four_or_waits reader_5 [1; 2; 3; 4; 5] H).
Defined.

(** With two elements in the queue, [read] appends them and waits. *)
Example read_waits_for_the_third :
  (read reader_2).1 = Blocked
  /\ elements (read reader_2).2 = [9; 1; 2]
  /\ count (this (queue (read reader_2).2)) = 0.
Proof. repeat split; reflexivity. Qed.
